(** * Rigid-body dynamics of a serial-link manipulator

    A shallow embedding of [roboticstoolbox/robot/Dynamics.py] (class
    [Dynamics]) and the properties its specification states about it.

    Conventions of the embedding.

    - Numbers.  NumPy floats are idealised as the elements of an
      archimedean real field [F] with exact arithmetic; the concrete
      evaluations instantiate [F] with the rationals.  Where the code
      relies on the IEEE special values (the ratios of [paycap]) the
      values are the extended numbers [ext F] below.
    - Arrays.  A 1-D array of length [n] is a column vector ['cV[F]_n]; a
      2-D array of shape [(n, k)] is a matrix ['M[F]_(n, k)], so [q[:, i]]
      is [col i q], [A @ B] is [A *m B], [np.eye(n)] is [1%:M] and
      [np.zeros] is [0].  Shapes are carried by the types, so the
      [ValueError]s of [getvector] / [verifymatrix] have no counterpart.
    - Collaborators.  The inverse-dynamics recursion [rne], the Jacobians
      [jacob0] / [jacobe], the SciPy integrators and the random source are
      not part of this module; they are section variables.
    - Exceptions.  A call that may raise returns a [result]. *)

From HB Require Import structures.
From Stdlib Require Import String.
From mathcomp Require Import boot order algebra.

Set Implicit Arguments.
Unset Strict Implicit.
Unset Printing Implicit Defensive.
Set Warnings "-notation-overridden,-ambiguous-paths".

Import Order.TTheory GRing.Theory Num.Theory.

Local Open Scope ring_scope.

(** ** Python exceptions and results *)

Inductive exn : Type :=
  | ValueError of string
  | RuntimeError of string
  | KeyError of string
  | ZeroDivisionError of string
  | LinAlgError of string.

Inductive result (A : Type) : Type :=
  | Ok of A
  | Raise of exn.

Arguments Ok {A} _.
Arguments Raise {A} _.

Definition bind {A B : Type} (x : result A) (f : A -> result B) : result B :=
  match x with
  | Ok a => f a
  | Raise e => Raise e
  end.

Notation "x <~ c1 ;; c2" := (bind c1 (fun x => c2))
  (at level 61, c1 at next level, right associativity).

Definition is_ok {A : Type} (x : result A) : bool :=
  if x is Ok _ then true else false.

(** The two [RuntimeError]s raised by [fdyn] and [_fdyn]. *)
Definition msg_integration_failed : string :=
  "integration completed with failed status ".

Definition msg_torque_contract : string :=
  "torque function must return vector with N real elements".

Definition msg_singular : string := "Singular matrix".

(** How a call of [fdyn] ends: it returns, it raises, or the integration loop is
    still running when the fuel is spent. *)
Inductive outcome (A : Type) : Type :=
  | Returns of A
  | Raises of exn
  | Diverges.

Arguments Raises {A} _.
Arguments Diverges {A}.

(** [integrator.status] *)
Inductive solver_status : Type := running | finished | failed.

(** ** The model and its inverse-dynamics oracle *)

Section RigidBody.

Variable F : archiRealFieldType.

(** [self.n], the number of joints. *)
Variable n : nat.

(** Modelled from the spec: the [Link] class is not part of this module;
    section 3 of the specification lists its dynamic parameters. *)
Record Link : Type := mkLink {
  link_m : F;
  link_r : 'cV[F]_3;
  link_I : 'M[F]_3;
  link_Jm : F;
  link_G : F;
  link_B : F;
  link_Tc : F * F;
  link_sigma : bool
}.

(** The attributes of [self] this module reads: [name], [links],
    [gravity] and the stored configuration [q]. *)
Record Robot : Type := mkRobot {
  name : string;
  links : seq Link;
  gravity : 'cV[F]_3;
  stored_q : 'cV[F]_n
}.

(** The oracle [self.rne(q, qd, qdd, grav)] on single vectors.  When the
    code omits [grav] the oracle uses the robot's own gravity, which the
    embedding passes explicitly. *)
Variable rne : Robot -> 'cV[F]_n -> 'cV[F]_n -> 'cV[F]_n -> 'cV[F]_3 -> 'cV[F]_n.

(** Modelled from the spec: the batched form of the oracle is not part of
    this module; section 6 gives "batched matrices (columns = samples), all
    with matching batch width; must return torque of the same shape". *)
Definition rne_batch (k : nat) (rb : Robot) (Q QD QDD : 'M[F]_(n, k))
    (grav : 'cV[F]_3) : 'M[F]_(n, k) :=
  \matrix_(i, j) rne rb (col j Q) (col j QD) (col j QDD) grav i 0.

(** [np.ones((1, self.n))] *)
Definition ones_row : 'rV[F]_n := const_mx 1.

(** [A[:, j] = v] *)
Definition set_col (k : nat) (A : 'M[F]_(n, k)) (j : 'I_k) (v : 'cV[F]_n) :
    'M[F]_(n, k) :=
  \matrix_(i, c) if c == j then v i 0 else A i c.

(** *** [inertia] *)

(** One plane [In[:, :, i]] of [inertia]: a single batched oracle call on
    [np.c_[q] @ ones], [zeros((n, n))], [eye(n)] with [grav = [0, 0, 0]]. *)
Definition inertia_plane (rb : Robot) (q : 'cV[F]_n) : 'M[F]_n :=
  rne_batch rb (q *m ones_row) 0 1%:M 0.

(** [inertia] on a trajectory: plane [i] is written once, at iteration [i]
    of the loop, from column [i] of [q] alone. *)
Definition inertia_traj (k : nat) (rb : Robot) (Q : 'M[F]_(n, k)) :
    'I_k -> 'M[F]_n :=
  fun i => inertia_plane rb (col i Q).

(** [inertia(q)] for a single configuration: [trajn = 1], [In[:, :, 0]]. *)
Definition inertia (rb : Robot) (q : 'cV[F]_n) : 'M[F]_n :=
  inertia_traj rb q 0.

(** *** [itorque] *)

Definition itorque_traj (k : nat) (rb : Robot) (Q QDD : 'M[F]_(n, k)) :
    'M[F]_(n, k) :=
  foldl (fun taui i => set_col taui i (rne rb (col i Q) 0 (col i QDD) 0))
        0 (enum 'I_k).

Definition itorque (rb : Robot) (q qdd : 'cV[F]_n) : 'cV[F]_n :=
  col 0 (itorque_traj rb q qdd).

(** *** [accel] *)

(** The body of the loop of [accel] for one trajectory column. *)
Definition accel_column (rb : Robot) (q qd torque : 'cV[F]_n) :
    result 'cV[F]_n :=
  let qI := q *m ones_row in
  let qdI : 'M[F]_n := 0 in
  let qddI : 'M[F]_n := 1%:M in
  let m := rne_batch rb qI qdI qddI 0 in
  let tau := rne rb q qd 0 (gravity rb) in
  let inter := torque - tau in
  if m \in unitmx then Ok (invmx m *m inter)
  else Raise (LinAlgError msg_singular).

Definition accel_traj (k : nat) (rb : Robot) (Q QD TORQUE : 'M[F]_(n, k)) :
    result 'M[F]_(n, k) :=
  foldl (fun acc i =>
           qdd <~ acc ;;
           c <~ accel_column rb (col i Q) (col i QD) (col i TORQUE) ;;
           Ok (set_col qdd i c))
        (Ok 0) (enum 'I_k).

(** [accel(q, qd, torque)] on single vectors: [getvector(..., 'col')] makes
    each an [(n, 1)] column, [trajn = 1] and the result is [qdd[:, 0]]. *)
Definition accel (rb : Robot) (q qd torque : 'cV[F]_n) : result 'cV[F]_n :=
  qdd <~ accel_traj rb q qd torque ;; Ok (col 0 qdd).

(** *** [nofriction], read on values *)

(** Modelled from the spec: [Link.nofriction] is not part of this module;
    section 4.5 gives "Links have the selected friction coefficients
    zeroed; all other parameters identical". *)
Definition Link_nofriction (coulomb viscous : bool) (l : Link) : Link :=
  mkLink (link_m l) (link_r l) (link_I l) (link_Jm l) (link_G l)
         (if viscous then 0 else link_B l)
         (if coulomb then (0, 0) else link_Tc l)
         (link_sigma l).

(** The robot [nofriction] returns, as a value.  The object-level reading,
    with the store of link objects, is [nofriction_obj] below. *)
Definition nofriction (rb : Robot) (coulomb viscous : bool) : Robot :=
  mkRobot ("NF/" ++ name rb)
          [seq Link_nofriction coulomb viscous link | link <- links rb]
          (gravity rb) (stored_q rb).

(** *** [coriolis] *)

(** [v[i] = x] *)
Definition set_elem (v : 'cV[F]_n) (i : 'I_n) (x : F) : 'cV[F]_n :=
  \col_c if c == i then x else v c 0.

(** [A[:, j] = A[:, j] + v] *)
Definition add_col (k : nat) (A : 'M[F]_(n, k)) (j : 'I_k) (v : 'cV[F]_n) :
    'M[F]_(n, k) :=
  set_col A j (col j A + v).

(** [v * s / 2], elementwise *)
Definition times_half (v : 'cV[F]_n) (s : F) : 'cV[F]_n :=
  \col_i (v i 0 * s / 2%:R).

(** The first loop: [Csq[:, i] = Csq[:, i] + tau] with [QD = e_i]. *)
Definition coriolis_Csq (r1 : Robot) (q : 'cV[F]_n) : 'M[F]_n :=
  foldl (fun Csq i =>
           let QD := set_elem 0 i 1 in
           let tau := rne r1 q QD 0 0 in
           add_col Csq i tau)
        0 (enum 'I_n).

(** The second loop, over [i] and [j in range(i + 1, n)]. *)
Definition coriolis_pairs (r1 : Robot) (q qd : 'cV[F]_n) (Csq : 'M[F]_n) :
    'M[F]_n :=
  foldl (fun C i =>
           foldl (fun C j =>
                    let QD := set_elem (set_elem 0 i 1) j 1 in
                    let tau := rne r1 q QD 0 0 in
                    let C := add_col C j
                      (times_half (tau - col j Csq - col i Csq) (qd i 0)) in
                    add_col C i
                      (times_half (tau - col j Csq - col i Csq) (qd j 0)))
                 C [seq j : 'I_n <- enum 'I_n | (i < j)%N])
        0 (enum 'I_n).

(** One plane [C[:, :, k]] of [coriolis]. *)
Definition coriolis (rb : Robot) (q qd : 'cV[F]_n) : 'M[F]_n :=
  let r1 := nofriction rb true true in
  let Csq := coriolis_Csq r1 q in
  let C := coriolis_pairs r1 q qd Csq in
  C + Csq *m diag_mx qd^T.

(** [coriolis] on a trajectory: plane [k] is computed from column [k] of
    [q] and [qd] alone. *)
Definition coriolis_traj (k : nat) (rb : Robot) (Q QD : 'M[F]_(n, k)) :
    'I_k -> 'M[F]_n :=
  fun i => coriolis rb (col i Q) (col i QD).

(** *** [gravload] *)

Definition gravload_traj (k : nat) (rb : Robot) (Q : 'M[F]_(n, k))
    (grav : option 'cV[F]_3) : 'M[F]_(n, k) :=
  let grav := if grav is Some g then g else gravity rb in
  foldl (fun taug i => set_col taug i (rne rb (col i Q) 0 0 grav))
        0 (enum 'I_k).

Definition gravload (rb : Robot) (q : 'cV[F]_n) (grav : option 'cV[F]_3) :
    'cV[F]_n :=
  col 0 (gravload_traj rb q grav).

(** ** Extended numbers

    The IEEE special values [paycap] relies on, over exact finite
    arithmetic.  Zero is unsigned: a division by zero takes the sign of the
    numerator.  In [paycap] the sign of a zero divisor cannot change the
    result, because the only infinite quotient that survives is [+inf]. *)

Inductive ext : Type :=
  | Fin of F
  | PInf
  | NInf
  | NaN.

Definition is_nan (x : ext) : bool := if x is NaN then true else false.


Definition eadd (x y : ext) : ext :=
  match x, y with
  | NaN, _ | _, NaN => NaN
  | Fin a, Fin b => Fin (a + b)
  | PInf, NInf | NInf, PInf => NaN
  | PInf, _ | _, PInf => PInf
  | NInf, _ | _, NInf => NInf
  end.

Definition emul (x y : ext) : ext :=
  match x, y with
  | NaN, _ | _, NaN => NaN
  | Fin a, Fin b => Fin (a * b)
  | Fin a, PInf | PInf, Fin a =>
      if a == 0 then NaN else if 0 < a then PInf else NInf
  | Fin a, NInf | NInf, Fin a =>
      if a == 0 then NaN else if 0 < a then NInf else PInf
  | PInf, PInf | NInf, NInf => PInf
  | PInf, NInf | NInf, PInf => NInf
  end.

Definition ediv (x y : ext) : ext :=
  match x, y with
  | NaN, _ | _, NaN => NaN
  | Fin a, Fin b =>
      if b == 0 then (if a == 0 then NaN else if 0 < a then PInf else NInf)
      else Fin (a / b)
  | Fin _, PInf | Fin _, NInf => Fin 0
  | PInf, Fin b => if 0 <= b then PInf else NInf
  | NInf, Fin b => if 0 <= b then NInf else PInf
  | _, _ => NaN
  end.

(** [x > 0] and [x <= 0]; both are false on NaN. *)
Definition egt0 (x : ext) : bool :=
  match x with Fin a => 0 < a | PInf => true | _ => false end.

Definition ele0 (x : ext) : bool :=
  match x with Fin a => a <= 0 | NInf => true | _ => false end.

(** [x >= y], false when either is NaN. *)
Definition ege (x y : ext) : bool :=
  match x, y with
  | NaN, _ | _, NaN => false
  | Fin a, Fin b => b <= a
  | PInf, _ => true
  | _, NInf => true
  | _, _ => false
  end.

(** [np.argmin] on a 1-D float array: the index of the first NaN if there
    is one, else of the first minimum.  The scan keeps the running minimum
    [mp] and replaces it when [not (x >= mp)]. *)
Fixpoint argmin_scan (mp : ext) (min_ind i : nat) (s : seq ext) : nat :=
  match s with
  | [::] => min_ind
  | x :: s' =>
      if is_nan mp then min_ind
      else if ~~ ege x mp then argmin_scan x i i.+1 s'
      else argmin_scan mp min_ind i.+1 s'
  end.

Definition argmin (s : seq ext) : nat :=
  if s is x :: s' then argmin_scan x 0 1 s' else 0.

(** *** [pay] and [paycap] *)

(** The kinematic collaborator: [self.jacob0(q)] and [self.jacobe(q)]. *)
Variables jacob0 jacobe : Robot -> 'cV[F]_n -> 'M[F]_(6, n).

(** [math.sqrt] on floats, behind [np.linalg.norm]. *)
Variable sqrtF : F -> F.

(** [np.linalg.norm(w)] *)
Definition norm (w : 'cV[F]_6) : F := sqrtF (\sum_(k < 6) w k 0 ^+ 2).

(** The Jacobian [pay] computes when none is supplied. *)
Definition pay_jacobian (rb : Robot) (q : 'cV[F]_n) (frame : bool) :
    'M[F]_(6, n) :=
  if frame then jacobe rb q else jacob0 rb q.

(** [pay(W, q, J, frame)] for one configuration: [tau = -J.T @ W].  The
    wrench may hold special values when it comes from [paycap]. *)
Definition pay (rb : Robot) (W : 'cV[ext]_6) (q : option 'cV[F]_n)
    (J : option 'M[F]_(6, n)) (frame : bool) : 'cV[ext]_n :=
  let J :=
    if J is Some J then J
    else
      let q := if q is Some q then q else stored_q rb in
      pay_jacobian rb q frame in
  \col_c \big[eadd/Fin 0]_(k < 6) emul (Fin (- J k c)) (W k 0).

(** The per-joint scaling factor [WM[c]] of [paycap], after the clamp
    [WM[WM == np.NINF] = np.Inf]. *)
Definition paycap_factor (TAUM TAUm tauB : F) (tauP : ext) : ext :=
  let wm :=
    if egt0 tauP then ediv (Fin (TAUM - tauB)) tauP
    else if ele0 tauP then ediv (Fin (TAUm - tauB)) tauP
    else Fin 0 in
  if wm is NInf then PInf else wm.

(** [w[:, i] / np.linalg.norm(w[:, i])] *)
Definition unit_wrench (w : 'cV[F]_6) : 'cV[ext]_6 :=
  \col_k ediv (Fin (w k 0)) (Fin (norm w)).

(** [tauP]: the joint torque per unit wrench, from [pay]. *)
Definition paycap_tauP (rb : Robot) (w : 'cV[F]_6) (frame : bool)
    (q : 'cV[F]_n) : 'cV[ext]_n :=
  pay rb (unit_wrench w) (Some q) None frame.

(** The vector [WM] of [paycap] for one configuration. *)
Definition paycap_WM (rb : Robot) (w : 'cV[F]_6) (tauR : 'M[F]_(n, 2))
    (frame : bool) (q : 'cV[F]_n) : seq ext :=
  let tauB := gravload rb q None in
  let tauP := paycap_tauP rb w frame q in
  [seq paycap_factor (tauR c 0) (tauR c 1) (tauB c 0) (tauP c 0)
  | c <- enum 'I_n].

Definition msg_broadcast : string :=
  "could not broadcast input array into shape (6,)".

(** [wmax[:, i] = WM]: a length-6 slice takes an array of length 6, or of
    length 1 by broadcasting; any other length is a [ValueError]. *)
Definition assign_wmax (WM : seq ext) : result 'cV[ext]_6 :=
  if size WM == 6 then Ok (\col_(i < 6) nth NaN WM i)
  else if size WM == 1 then Ok (\col_(i < 6) nth NaN WM 0)
  else Raise (ValueError msg_broadcast).

(** [paycap(w, tauR, frame, q)] for one configuration ([trajn = 1]). *)
Definition paycap (rb : Robot) (w : 'cV[F]_6) (tauR : 'M[F]_(n, 2))
    (frame : bool) (q : option 'cV[F]_n) : result ('cV[ext]_6 * nat) :=
  let q := if q is Some q then q else stored_q rb in
  let WM := paycap_WM rb w tauR frame q in
  wmax <~ assign_wmax WM ;;
  let joint := argmin WM in
  Ok (wmax, joint).

(** ** Forward dynamics: [_fdyn] and [fdyn] *)

(** The integrator state [np.r_[q, qd]]. *)
Definition state : Type := 'cV[F]_(n + n).

(** The keyword arguments [targs] and [sargs] are opaque to this module. *)
Variables targs_t sargs_t : Type.

(** A torque law [torqfun(robot, t, q, qd, **targs)].  It returns an array
    of any length whose elements are complex numbers [(re, im)], or raises. *)
Definition torque_law : Type :=
  Robot -> F -> 'cV[F]_n -> 'cV[F]_n -> targs_t -> result (seq (F * F)).

(** [np.isreal] *)
Definition isreal (z : F * F) : bool := z.2 == 0.

(** A validated torque as a real vector of length [n]. *)
Definition real_vector (tau : seq (F * F)) : 'cV[F]_n :=
  \col_i (nth (0, 0) tau i).1.

Definition _fdyn (rb : Robot) (t : F) (x : state) (torqfun : option torque_law)
    (targs : targs_t) : result state :=
  let q : 'cV[F]_n := usubmx x in
  let qd : 'cV[F]_n := dsubmx x in
  tau <~ match torqfun with
         | None => Ok 0
         | Some torqfun =>
             tau <~ torqfun rb t q qd targs ;;
             if (size tau != n) || ~~ all isreal tau
             then Raise (RuntimeError msg_torque_contract)
             else Ok (real_vector tau)
         end ;;
  qdd <~ accel rb q qd tau ;;
  Ok (col_mx qd qdd).

(** *** The SciPy collaborators *)

(** What an integrator does between two observations of its attributes:
    it evaluates the derivative function any number of times, each result
    deciding how it goes on, and ends in a new solver state or raises.
    An exception of the derivative function is not caught by the solver. *)
Inductive solver_prog (A : Type) : Type :=
  | Done of A
  | Throw of exn
  | Eval of F & state & (state -> solver_prog A).

(** A class of [scipy.integrate]: the constructor
    [cls(fun, t0, y0, t_bound, **sargs)], [step()] and the attributes
    [status], [t], [y]. *)
Record Solver : Type := mkSolver {
  solver_obj : Type;
  solver_new : F -> state -> F -> sargs_t -> solver_prog solver_obj;
  solver_step : solver_obj -> solver_prog solver_obj;
  status : solver_obj -> solver_status;
  solver_t : solver_obj -> F;
  solver_y : solver_obj -> state
}.

(** [integrate.__dict__] *)
Variable integrate_dict : string -> option Solver.

(** Running a solver against the derivative function [f].  The second
    component logs the points at which [f] was evaluated, in order. *)
Fixpoint run_prog (A : Type) (f : F -> state -> result state)
    (p : solver_prog A) : result A * seq (F * state) :=
  match p with
  | Done a => (Ok a, [::])
  | Throw e => (Raise e, [::])
  | Eval t y k =>
      match f t y with
      | Ok dy => let: (r, log) := run_prog f (k dy) in (r, (t, y) :: log)
      | Raise e => (Raise e, [:: (t, y)])
      end
  end.

(** [np.arange(0, stop, step)]: [ceil(stop / step)] values [i * step], none
    when that count is not positive; a zero step is rejected. *)
Definition arange_len (stop step : F) : nat :=
  if Num.ceil (stop / step) is Posz k then k else 0%N.

Definition arange (stop step : F) : result (seq F) :=
  if step == 0 then Raise (ZeroDivisionError "division by zero")
  else Ok [seq i%:R * step | i <- iota 0 (arange_len stop step)].

(** [interpolate.interp1d(x, y, axis=0)] with its defaults: linear, the
    samples sorted by abscissa (stable), an error outside their range. *)
Definition interp1d (x : seq F) (y : seq state) : result (seq (F * state)) :=
  if (size x < 2)%N
  then Raise (ValueError "x and y arrays must have at least 2 entries")
  else Ok (sort (fun a b => a.1 <= b.1) (zip x y)).

(** The interpolant at one abscissa within range: [searchsorted], the
    clip of the index to [1 .. len - 1], and the line through the two
    neighbours.  With equal neighbouring abscissae NumPy yields non-finite
    entries, which have no counterpart here; statements about interpolated
    values are made for strictly increasing sample times. *)
Definition interp_at (tab : seq (F * state)) (x_new : F) : state :=
  let idx := find (fun s => x_new <= s.1) tab in
  let hi := minn (maxn idx 1) (size tab).-1 in
  let lo := hi.-1 in
  let: (x_lo, y_lo) := nth (0, 0) tab lo in
  let: (x_hi, y_hi) := nth (0, 0) tab hi in
  let slope := (x_hi - x_lo)^-1 *: (y_hi - y_lo) in
  (x_new - x_lo) *: slope + y_lo.

Definition interp_call (tab : seq (F * state)) (x_new : seq F) :
    result (seq state) :=
  if has (fun x => x < (head (0, 0) tab).1) x_new
  then Raise (ValueError "A value in x_new is below the interpolation range.")
  else if has (fun x => (last (0, 0) tab).1 < x) x_new
  then Raise (ValueError "A value in x_new is above the interpolation range.")
  else Ok [seq interp_at tab x | x <- x_new].

(** *** [fdyn] *)

(** [namedtuple('fdyn', 't q qd')]; [q] and [qd] hold one row per sample. *)
Record fdyn_tuple : Type := mk_fdyn {
  tg_t : seq F;
  tg_q : seq 'cV[F]_n;
  tg_qd : seq 'cV[F]_n
}.

(** The loop [while integrator.status == 'running'].  The log collects
    the derivative evaluations of the steps taken. *)
Fixpoint fdyn_loop (sv : Solver) (f : F -> state -> result state)
    (fuel : nat) (integrator : solver_obj sv) (tlist : seq F)
    (xlist : seq state) : outcome (seq F * seq state) * seq (F * state) :=
  if status integrator is running then
    if fuel is fuel'.+1 then
      let: (r, log) := run_prog f (solver_step integrator) in
      match r with
      | Raise e => (Raises e, log)
      | Ok integrator' =>
          if status integrator' is failed
          then (Raises (RuntimeError msg_integration_failed), log)
          else
            let: (o, log') :=
              fdyn_loop f fuel' integrator'
                        (rcons tlist (solver_t integrator'))
                        (rcons xlist (solver_y integrator')) in
            (o, log ++ log')
      end
    else (Diverges, [::])
  else (Returns (tlist, xlist), [::]).

(** The tail of [fdyn], after the loop. *)
Definition fdyn_output (T : F) (dt : option F) (tarray : seq F)
    (xarray : seq state) : result fdyn_tuple :=
  match dt with
  | Some dt =>
      interp <~ interp1d tarray xarray ;;
      tnew <~ arange T dt ;;
      xnew <~ interp_call interp tnew ;;
      Ok (mk_fdyn tnew [seq usubmx x | x <- xnew] [seq dsubmx x | x <- xnew])
  | None =>
      Ok (mk_fdyn tarray [seq usubmx x | x <- xarray]
                         [seq dsubmx x | x <- xarray])
  end.

(** [fdyn] up to the end of the integration loop: the samples
    [(tlist, xlist)], with the log of the derivative evaluations of the
    whole run.  The progress bar only prints. *)
Definition fdyn_samples (rb : Robot) (T : F) (q0 : 'cV[F]_n)
    (torqfun : option torque_law) (targs : targs_t)
    (qd0 : option 'cV[F]_n) (solver : string) (sargs : sargs_t)
    (fuel : nat) : outcome (seq F * seq state) * seq (F * state) :=
  let qd0 := if qd0 is Some qd0 then qd0 else 0 in
  let x0 : state := col_mx q0 qd0 in
  match integrate_dict solver with
  | None => (Raises (KeyError solver), [::])
  | Some scipy_integrator =>
      let f := fun t y => _fdyn rb t y torqfun targs in
      let: (r, log0) := run_prog f (solver_new scipy_integrator 0 x0 T sargs) in
      match r with
      | Raise e => (Raises e, log0)
      | Ok integrator =>
          let tlist := [:: 0] in
          let xlist := [:: col_mx q0 qd0] in
          let: (o, log1) := fdyn_loop f fuel integrator tlist xlist in
          (o, log0 ++ log1)
      end
  end.

(** [fdyn(T, q0, torqfun, targs, qd0, solver, sargs, dt)] with its log. *)
Definition fdyn_run (rb : Robot) (T : F) (q0 : 'cV[F]_n)
    (torqfun : option torque_law) (targs : targs_t)
    (qd0 : option 'cV[F]_n) (solver : string) (sargs : sargs_t)
    (dt : option F) (fuel : nat) : outcome fdyn_tuple * seq (F * state) :=
  let: (o, log) :=
    fdyn_samples rb T q0 torqfun targs qd0 solver sargs fuel in
  (match o with
   | Returns (tarray, xarray) =>
       match fdyn_output T dt tarray xarray with
       | Ok tg => Returns tg
       | Raise e => Raises e
       end
   | Raises e => Raises e
   | Diverges => Diverges
   end, log).

Definition fdyn (rb : Robot) (T : F) (q0 : 'cV[F]_n)
    (torqfun : option torque_law) (targs : targs_t)
    (qd0 : option 'cV[F]_n) (solver : string) (sargs : sargs_t)
    (dt : option F) (fuel : nat) : outcome fdyn_tuple :=
  (fdyn_run rb T q0 torqfun targs qd0 solver sargs dt fuel).1.

(** The solver object after [k] calls of [step()], whatever its status. *)
Fixpoint solver_after (sv : Solver) (f : F -> state -> result state)
    (k : nat) (integrator : solver_obj sv) : result (solver_obj sv) :=
  if k is k'.+1 then
    integrator' <~ (run_prog f (solver_step integrator)).1 ;;
    solver_after f k' integrator'
  else Ok integrator.

(** ** The quantities the specification names

    Second definitions, written from the words of the specification, to
    compare with the code above. *)

(** The joint-space mass matrix of section 4.1: column [j] is the torque
    of the unit-acceleration probe [e_j] at zero velocity and gravity. *)
Definition mass_matrix (rb : Robot) (q : 'cV[F]_n) : 'M[F]_n :=
  \matrix_(i, j) rne rb q 0 (delta_mx j 0) 0 i 0.

(** The bias torque of section 4.3: one oracle call at [(q, qd, 0, gravity)]. *)
Definition tau_bias (rb : Robot) (q qd : 'cV[F]_n) : 'cV[F]_n :=
  rne rb q qd 0 (gravity rb).

(** Step 1 of section 4.1: [Csq[:, i]] is the single-joint unit-velocity
    probe at zero acceleration and gravity. *)
Definition centripetal_probes (r1 : Robot) (q : 'cV[F]_n) : 'M[F]_n :=
  \matrix_(r, i) rne r1 q (delta_mx i 0) 0 0 r 0.

(** Step 2: the paired probe [qd_i = qd_j = 1] minus both single-joint
    contributions. *)
Definition cross_term (r1 : Robot) (q : 'cV[F]_n) (i j : 'I_n) : 'cV[F]_n :=
  rne r1 q (delta_mx i 0 + delta_mx j 0) 0 0
  - col i (centripetal_probes r1 q) - col j (centripetal_probes r1 q).

(** The matrix whose column [j] is [v] and whose other columns are zero. *)
Definition into_col (j : 'I_n) (v : 'cV[F]_n) : 'M[F]_n :=
  \matrix_(r, c) if c == j then v r 0 else 0.

(** Steps 1 to 3 on the robot [r1]. *)
Definition coriolis_by_probes (r1 : Robot) (q qd : 'cV[F]_n) : 'M[F]_n :=
  \sum_(i < n) \sum_(j < n | (i < j)%N)
     (into_col j ((qd i 0 / 2%:R) *: cross_term r1 q i j)
      + into_col i ((qd j 0 / 2%:R) *: cross_term r1 q i j))
  + centripetal_probes r1 q *m diag_mx qd^T.



(** What one iteration of the second loop of [coriolis] adds to [C]. *)
Definition pair_update (r1 : Robot) (q qd : 'cV[F]_n) (Csq : 'M[F]_n)
    (i j : 'I_n) : 'M[F]_n :=
  let tau := rne r1 q (set_elem (set_elem 0 i 1) j 1) 0 0 in
  into_col j (times_half (tau - col j Csq - col i Csq) (qd i 0))
  + into_col i (times_half (tau - col j Csq - col i Csq) (qd j 0)).


End RigidBody.

Arguments Done {F n A} _.
Arguments Throw {F n A} _.
Arguments Eval {F n A} _ _ _.
Arguments PInf {F}.
Arguments NInf {F}.
Arguments NaN {F}.


(** ** The variant factory on objects: [nofriction] and [perterb]

    The value reading of [nofriction] above cannot say that the source
    robot is left alone.  Here robots and links are objects in a store;
    an attribute [links] holds the addresses of link objects, so two
    robots may share a link, and [r2.links[i].m = ...] writes into the
    store. *)

Section VariantFactory.

Variable F : archiRealFieldType.
Variable n : nat.

(** The state of the random source and [np.random.random()]. *)
Variable rng_t : Type.
Variable random : rng_t -> F * rng_t.

(** A robot object: the attribute [_links] is a list of addresses. *)
Record RobotObj : Type := mkRobotObj {
  obj_name : string;
  obj_links : seq nat;
  obj_gravity : 'cV[F]_3;
  obj_q : 'cV[F]_n
}.

Record store : Type := mkStore {
  link_objs : seq (Link F);
  robot_objs : seq RobotObj;
  rng : rng_t
}.

Definition no_link : Link F := mkLink 0 0 0 0 0 0 (0, 0) false.

Definition no_robot : RobotObj := mkRobotObj "" [::] 0 0.

Definition get_link (s : store) (a : nat) : Link F :=
  nth no_link (link_objs s) a.

Definition get_robot (s : store) (a : nat) : RobotObj :=
  nth no_robot (robot_objs s) a.

Definition set_link (s : store) (a : nat) (l : Link F) : store :=
  mkStore (set_nth no_link (link_objs s) a l) (robot_objs s) (rng s).

Definition set_robot (s : store) (a : nat) (r : RobotObj) : store :=
  mkStore (link_objs s) (set_nth no_robot (robot_objs s) a r) (rng s).

(** A new object gets the next free address. *)
Definition new_link (l : Link F) (s : store) : nat * store :=
  (size (link_objs s), mkStore (rcons (link_objs s) l) (robot_objs s) (rng s)).

Definition new_robot (r : RobotObj) (s : store) : nat * store :=
  (size (robot_objs s),
   mkStore (link_objs s) (rcons (robot_objs s) r) (rng s)).


(** [[f(link) for link in links]] for an [f] that may allocate. *)
Fixpoint for_links (f : nat -> store -> nat * store) (ls : seq nat)
    (s : store) : seq nat * store :=
  if ls is a :: ls' then
    let: (a', s1) := f a s in
    let: (r, s2) := for_links f ls' s1 in
    (a' :: r, s2)
  else ([::], s).


(** Modelled from the spec: [_copy] is not part of this module; sections
    3 and 9 give a copy by value, a new robot with new links ("deep-copy
    the parameter set, return a new handle"). *)
Definition _copy (self : nat) (s : store) : nat * store :=
  let r := get_robot s self in
  let: (ls, s) := for_links (fun a s => new_link (get_link s a) s)
                            (obj_links r) s in
  new_robot (mkRobotObj (obj_name r) ls (obj_gravity r) (obj_q r)) s.

(** One iteration of the loop of [perterb]. *)
Definition perterb_link (r2 : nat) (p : F) (s : store) (i : nat) : store :=
  (* s = (2 * np.random.random() - 1) * p + 1 *)
  let: (u, g) := random (rng s) in
  let s := mkStore (link_objs s) (robot_objs s) g in
  let sc := (2%:R * u - 1) * p + 1 in
  (* r2.links[i].m = r2.links[i].m * s *)
  let a := nth 0%N (obj_links (get_robot s r2)) i in
  let l := get_link s a in
  let s := set_link s a
             (mkLink (link_m l * sc) (link_r l) (link_I l) (link_Jm l)
                     (link_G l) (link_B l) (link_Tc l) (link_sigma l)) in
  let: (u, g) := random (rng s) in
  let s := mkStore (link_objs s) (robot_objs s) g in
  let sc := (2%:R * u - 1) * p + 1 in
  (* r2.links[i].I = r2.links[i].I * s *)
  let a := nth 0%N (obj_links (get_robot s r2)) i in
  let l := get_link s a in
  set_link s a
    (mkLink (link_m l) (link_r l) (sc *: link_I l) (link_Jm l)
            (link_G l) (link_B l) (link_Tc l) (link_sigma l)).

(** [perterb(self, p)]; [self.n] is the number of links of [self]. *)
Definition perterb (self : nat) (p : F) (s : store) : nat * store :=
  let: (r2, s) := _copy self s in
  let r := get_robot s r2 in
  let s := set_robot s r2
             (mkRobotObj ("P/" ++ obj_name (get_robot s self))
                         (obj_links r) (obj_gravity r) (obj_q r)) in
  let self_n := size (obj_links (get_robot s self)) in
  (r2, foldl (perterb_link r2 p) s (iota 0 self_n)).

(** The robot at an address, as a value: its attributes and the
    parameters of the links it refers to. *)
Definition robot_value (s : store) (a : nat) : Robot F n :=
  let r := get_robot s a in
  mkRobot (obj_name r) [seq get_link s l | l <- obj_links r]
          (obj_gravity r) (obj_q r).

(** The handle [self] is allocated and so are the links it refers to. *)
Definition valid_robot (s : store) (self : nat) : bool :=
  (self < size (robot_objs s))%N
  && all (fun a => (a < size (link_objs s))%N) (obj_links (get_robot s self)).




End VariantFactory.

(** ** Instances over the rationals

    Concrete collaborators and inputs on which the definitions above are
    evaluated. *)

(** A square root on the rationals, exact on the squares of rationals,
    which are the only arguments the evaluations below give it. *)
Definition rat_sqrt (x : rat) : rat :=
  if x <= 0 then 0
  else (Nat.sqrt `|numq x|)%:R / (Nat.sqrt `|denq x|)%:R.

(** An oracle for a robot of unit joint inertias on which neither gravity
    nor velocity acts: the torque is the acceleration. *)
Definition unit_rne (n : nat) (rb : Robot rat n)
    (q qd qdd : 'cV[rat]_n) (grav : 'cV[rat]_3) : 'cV[rat]_n :=
  qdd.

Definition demo_link : Link rat :=
  mkLink 1 0 0 0 1 (1 / 2%:R) (1 / 4%:R, - (1 / 4%:R)) false.

Definition demo_robot (n : nat) : Robot rat n :=
  mkRobot "demo" (nseq n demo_link) 0 0.

(** *** A six-joint arm for [paycap] *)



(** A Jacobian on which the unit force along x loads joint [c] with the
    torque [c + 1]. *)
Definition ramp_jacobian : 'M[rat]_(6, 6) :=
  \matrix_(k, c) if k == 0%N :> nat then - (c.+1)%:R else 0.

Definition force_x : 'cV[rat]_6 := \col_k (k == 0%N :> nat)%:R.

(** Torque limits [+12] and [-12] on every joint. *)
Definition demo_tauR (n : nat) : 'M[rat]_(n, 2) :=
  \matrix_(c, j) if j == 0%N :> nat then 12%:R else - 12%:R.

(** *** Integrators for [fdyn] *)

(** An explicit Euler integrator that reaches [t_bound] in one step.  Its
    object holds [t], [y], [t_bound] and the status. *)
Definition euler_solver (n : nat) : Solver rat n unit :=
  @mkSolver rat n unit
    (rat * state rat n * rat * solver_status)%type
    (fun t0 y0 t_bound _ => Done (t0, y0, t_bound, running))
    (fun s =>
       let: (t, y, t_bound, _) := s in
       Eval t y (fun dy =>
         Done (t_bound, y + (t_bound - t) *: dy, t_bound, finished)))
    (fun s => s.2)
    (fun s => s.1.1.1)
    (fun s => s.1.1.2).

(** An integrator whose first step fails. *)
Definition stuck_solver (n : nat) : Solver rat n unit :=
  @mkSolver rat n unit
    (rat * state rat n * rat * solver_status)%type
    (fun t0 y0 t_bound _ => Done (t0, y0, t_bound, running))
    (fun s => let: (t, y, t_bound, _) := s in Done (t, y, t_bound, failed))
    (fun s => s.2)
    (fun s => s.1.1.1)
    (fun s => s.1.1.2).

Definition demo_dict (n : nat) (solver : string) : option (Solver rat n unit) :=
  if String.eqb solver "Euler" then Some (euler_solver n)
  else if String.eqb solver "Stuck" then Some (stuck_solver n)
  else None.

(** A torque law that returns an empty vector. *)
Definition empty_law (n : nat) : torque_law rat n unit :=
  fun _ _ _ _ _ => Ok [::].

(** The derivative of the unit oracle without torque law at the state [x]. *)
Definition demo_deriv (n : nat) (x : state rat n) : state rat n :=
  col_mx (dsubmx x)
    (invmx (mass_matrix (@unit_rne n) (demo_robot n) (usubmx x))
     *m (0 - tau_bias (@unit_rne n) (demo_robot n) (usubmx x) (dsubmx x))).

(** The samples of the Euler integrator from [q0] at rest over [[0, T]]. *)
Definition demo_x0 (n : nat) (q0 : 'cV[rat]_n) : state rat n := col_mx q0 0.

Definition demo_x1 (n : nat) (q0 : 'cV[rat]_n) (T : rat) : state rat n :=
  demo_x0 q0 + (T - 0) *: demo_deriv (demo_x0 q0).

Definition demo_raw (n : nat) (q0 : 'cV[rat]_n) (T : rat) : fdyn_tuple rat n :=
  mk_fdyn [:: 0; T]
    [:: usubmx (demo_x0 q0); usubmx (demo_x1 q0 T)]
    [:: dsubmx (demo_x0 q0); dsubmx (demo_x1 q0 T)].


(** *** A store for the variant factory *)

(** One robot, at address 0, with the two links at addresses 0 and 1. *)
Definition demo_store (n : nat) : store rat n nat :=
  mkStore [:: demo_link; demo_link]
          [:: mkRobotObj "demo" [:: 0%N; 1%N] 0 0]
          0%N.

(** A random source that always draws [1/2]. *)
Definition demo_random (g : nat) : rat * nat := (1 / 2%:R, g.+1).

(** ** The remaining methods: [jointdynamics], [cinertia], [pay] on a
    trajectory and [payload] *)

Section ActuatorAndCartesian.

Variable F : archiRealFieldType.
Variable n : nat.
Variable rne :
  Robot F n -> 'cV[F]_n -> 'cV[F]_n -> 'cV[F]_n -> 'cV[F]_3 -> 'cV[F]_n.
Variables jacob0 jacobe : Robot F n -> 'cV[F]_n -> 'M[F]_(6, n).

(** [np.linalg.pinv] on a Jacobian. *)
Variable pinv : 'M[F]_(6, n) -> 'M[F]_(n, 6).

(** *** [jointdynamics] *)

Definition msg_ambiguous : string :=
  "The truth value of an array with more than one element is ambiguous. Use a.any() or a.all()".

(** [bool(a)] for a boolean array [a], as [if a:] takes it: the element of
    an array of one element, an error for more than one; an empty array
    is false. *)
Definition truth_value (a : seq bool) : result bool :=
  match a with
  | [::] => Ok false
  | [:: b] => Ok b
  | _ => Raise (ValueError msg_ambiguous)
  end.

(** The body of the loop of [jointdynamics] for the link of joint [j].
    [M[j]] is a NumPy float, so the division by [abs(link.G) ** 2] follows
    the IEEE rules; [link.B] is a float, so [B += ...] rebinds the local
    name. *)
Definition jointdynamics_link (rb : Robot F n) (q : 'cV[F]_n)
    (qd : option 'cV[F]_n) (j : 'I_n) (link : Link F) : result (ext F * F) :=
  let zero : 'cV[F]_n := 0 in
  let qdd := set_elem 0 j 1 in
  let M := rne rb q zero qdd 0 in
  let J := eadd (Fin (link_Jm link))
                (ediv (Fin (M j 0)) (Fin (`|link_G link| ^+ 2))) in
  let B := link_B link in
  B <~ match qd with
       | None => Ok B
       | Some qd =>
           pos <~ truth_value [seq 0 < qd i 0 | i <- enum 'I_n] ;;
           if pos then Ok (B + (link_Tc link).1 / qd j 0)
           else
             neg <~ truth_value [seq qd i 0 < 0 | i <- enum 'I_n] ;;
             if neg then Ok (B + (link_Tc link).2 / qd j 0) else Ok B
       end ;;
  Ok (J, B).

(** [jointdynamics(q, qd)]: the list of the pairs [(J, B)].  The indices
    of [enumerate(self.links)] are joint indices, [self.n] being the
    number of links. *)
Definition jointdynamics (rb : Robot F n) (q : 'cV[F]_n)
    (qd : option 'cV[F]_n) : result (seq (ext F * F)) :=
  foldl (fun acc jl =>
           tf <~ acc ;;
           e <~ jointdynamics_link rb q qd jl.1 jl.2 ;;
           Ok (rcons tf e))
        (Ok [::]) (zip (enum 'I_n) (links rb)).

(** *** [cinertia] *)

Definition msg_broadcast_plane : string :=
  "could not broadcast input array from shape (6,6)".

(** [cinertia(q)] for one configuration.  [Ji.T @ M @ Ji] has shape
    [(6, 6)] and is assigned to the plane [Mt[:, :, i]] of shape [(n, n)],
    which takes it only when [n] is 6. *)
Definition cinertia (rb : Robot F n) (q : option 'cV[F]_n) :
    result 'M[F]_6 :=
  let q := if q is Some q then q else stored_q rb in
  let J := jacob0 rb q in
  let Ji := pinv J in
  let M := inertia rne rb q in
  let Mt := Ji^T *m M *m Ji in
  if n == 6%N then Ok Mt else Raise (ValueError msg_broadcast_plane).

(** *** [pay] on a trajectory *)

(** [pay(W, q, J, frame)] when [W] has shape [(6, trajn)]: the Jacobians
    come from [J], of shape [(6, n, trajn)], or else from the columns of
    [q]; [tau[:, i] = -J[:, :, i].T @ W[:, i]].  A [W] of one column is
    taken as a vector, with the same torques. *)
Definition pay_traj (k : nat) (rb : Robot F n) (W : 'M[F]_(6, k))
    (q : 'M[F]_(n, k)) (J : option ('I_k -> 'M[F]_(6, n))) (frame : bool) :
    'M[F]_(n, k) :=
  let J :=
    if J is Some J then J
    else fun i => pay_jacobian jacob0 jacobe rb (col i q) frame in
  foldl (fun tau i => set_col tau i (- (J i)^T *m col i W)) 0 (enum 'I_k).

(** The array of the values [Fin x], for [x] in a real array. *)
Definition finite_mx (m k : nat) (A : 'M[F]_(m, k)) : 'M[ext F]_(m, k) :=
  \matrix_(i, j) Fin (A i j).

(** *** The quantities of the velocity torques *)

(** The velocity torque of the robot [r1] at [(q, qd)] is a quadratic form
    in [qd] with the coefficients [G r i j]. *)
Definition quadratic_velocity_torque (r1 : Robot F n) (q : 'cV[F]_n)
    (G : 'I_n -> 'I_n -> 'I_n -> F) : Prop :=
  forall (qd : 'cV[F]_n) (r : 'I_n),
    rne r1 q qd 0 0 r 0 = \sum_(i < n) \sum_(j < n) G r i j * qd i 0 * qd j 0.

(** The oracle is affine in the acceleration at [(q, qd)], with the mass
    matrix as its linear part. *)
Definition affine_in_acceleration (rb : Robot F n) (q qd : 'cV[F]_n) : Prop :=
  forall qdd : 'cV[F]_n,
    rne rb q qd qdd (gravity rb)
    = mass_matrix rne rb q *m qdd + tau_bias rne rb q qd.

End ActuatorAndCartesian.

(** ** [payload] on objects *)

Section PayloadStore.

Variable F : archiRealFieldType.
Variable n : nat.
Variable rng_t : Type.

(** [payload(self, m, p)]: the two attribute writes go to the link object
    [self.links[self.n - 1]].  On a robot without links the subscript is
    [-1] on an empty list, an [IndexError], which is [None] here. *)
Definition payload (self : nat) (m : F) (p : option 'cV[F]_3)
    (s : store F n rng_t) : option (store F n rng_t) :=
  let p := if p is Some p then p else 0 in
  let ls := obj_links (get_robot s self) in
  let self_n := size ls in
  if self_n is k.+1 then
    let lastlink := nth 0%N ls k in
    (* lastlink.m = m *)
    let l := get_link s lastlink in
    let s := set_link s lastlink
               (mkLink m (link_r l) (link_I l) (link_Jm l) (link_G l)
                       (link_B l) (link_Tc l) (link_sigma l)) in
    (* lastlink.r = p *)
    let l := get_link s lastlink in
    Some (set_link s lastlink
            (mkLink (link_m l) p (link_I l) (link_Jm l) (link_G l)
                    (link_B l) (link_Tc l) (link_sigma l)))
  else None.

(** The link that [payload(m, p)] leaves in the place of [l]. *)
Definition loaded_link (m : F) (p : option 'cV[F]_3) (l : Link F) : Link F :=
  mkLink m (if p is Some p then p else 0) (link_I l) (link_Jm l) (link_G l)
         (link_B l) (link_Tc l) (link_sigma l).

(** The link [l'] is [l] with its mass and its inertia each scaled by a
    factor between [1 - p] and [1 + p], and nothing else changed. *)
Definition scaled_link (p : F) (l l' : Link F) : Prop :=
  exists s1 s2 : F,
    [/\ 1 - p <= s1 <= 1 + p, 1 - p <= s2 <= 1 + p
      & l' = mkLink (link_m l * s1) (link_r l) (s2 *: link_I l) (link_Jm l)
                    (link_G l) (link_B l) (link_Tc l) (link_sigma l)].

End PayloadStore.

(** ** Further instances over the rationals *)

(** An oracle with unit joint inertias and a velocity torque that couples
    the joints: [tau = qdd + (sum_j qd[j]) * qd]. *)
Definition coupled_rne (n : nat) (rb : Robot rat n)
    (q qd qdd : 'cV[rat]_n) (grav : 'cV[rat]_3) : 'cV[rat]_n :=
  qdd + (\sum_j qd j 0) *: qd.

(** The coefficients of the velocity torque of [coupled_rne]. *)
Definition coupled_coefficients (n : nat) (r i j : 'I_n) : rat := (r == i)%:R.

(** A torque law that returns the real vector of ones. *)
Definition ones_law (n : nat) : torque_law rat n unit :=
  fun _ _ _ _ _ => Ok (nseq n (1, 0)).

(** The two stages of the one-step Euler integrator from [q0] at rest over
    [[0, T]]. *)
Definition euler_stage (n : nat) (q0 : 'cV[rat]_n) (T : rat) (i : nat) :
    solver_obj (euler_solver n) :=
  if i is 0%N then (0, demo_x0 q0, T, running)
  else (T, demo_x1 q0 T, T, finished).

(** The pseudo-inverse of a matrix of full column rank. *)
Definition left_pinv (n : nat) (A : 'M[rat]_(6, n)) : 'M[rat]_(n, 6) :=
  invmx (A^T *m A) *m A^T.

(** A six-joint arm whose Jacobian is the identity. *)
Definition identity_jacobian (rb : Robot rat 6) (q : 'cV[rat]_6) :
    'M[rat]_(6, 6) :=
  1%:M.

(** * Properties *)

Section RigidBodyTheory.

Variable F : archiRealFieldType.
Variable n : nat.
Variable rne :
  Robot F n -> 'cV[F]_n -> 'cV[F]_n -> 'cV[F]_n -> 'cV[F]_3 -> 'cV[F]_n.

Implicit Types (rb : Robot F n) (q qd qdd tau : 'cV[F]_n).

Lemma col_outer_ones q (j : 'I_n) : col j (q *m ones_row F n) = q.
Proof.
apply/colP => i; rewrite !mxE big_ord1 !mxE mulr1.
by congr (q i _); apply: ord_inj.
Qed.

Lemma inertia_planeE rb q : inertia_plane rne rb q = mass_matrix rne rb q.
Proof.
by apply/matrixP => i j; rewrite !mxE col_outer_ones col0 col1.
Qed.

(** A loop that writes column [i] at iteration [i] builds the matrix of
    the columns written. *)
Lemma foldl_set_col k (f : 'I_k -> 'cV[F]_n) (s : seq 'I_k) (A : 'M[F]_(n, k)) :
  foldl (fun B i => set_col B i (f i)) A s
  = \matrix_(r, c) if c \in s then f c r 0 else A r c.
Proof.
elim: s A => [|x s IH] A /=; first by apply/matrixP => r c; rewrite mxE.
rewrite IH; apply/matrixP => r c; rewrite !mxE in_cons.
by case: (c \in s); rewrite ?orbT // orbF; case: eqP => // ->.
Qed.

Lemma foldl_set_col_enum k (f : 'I_k -> 'cV[F]_n) :
  foldl (fun B i => set_col B i (f i)) 0 (enum 'I_k)
  = \matrix_(r, c) f c r 0.
Proof.
by rewrite foldl_set_col; apply/matrixP => r c; rewrite !mxE mem_enum.
Qed.

Lemma col_cV (A : 'cV[F]_n) (i : 'I_1) : col i A = A.
Proof. by apply/colP => r; rewrite mxE !ord1. Qed.

Lemma accel_columnE rb q qd tau :
  accel_column rne rb q qd tau
  = if mass_matrix rne rb q \in unitmx
    then Ok (invmx (mass_matrix rne rb q) *m (tau - tau_bias rne rb q qd))
    else Raise (LinAlgError msg_singular).
Proof.
rewrite /accel_column /=.
by rewrite -[rne_batch _ _ _ _ _ _]/(inertia_plane rne rb q) inertia_planeE.
Qed.

(** The loop of [accel] when no column raises. *)
Lemma foldl_accel_ok k (g : 'I_k -> result 'cV[F]_n) (v : 'I_k -> 'cV[F]_n)
    (s : seq 'I_k) (A : 'M[F]_(n, k)) :
  (forall i, g i = Ok (v i)) ->
  foldl (fun acc i => qdd <~ acc ;; c <~ g i ;; Ok (set_col qdd i c)) (Ok A) s
  = Ok (foldl (fun B i => set_col B i (v i)) A s).
Proof.
by move=> gv; elim: s A => [|x s IH] A //=; rewrite gv /= IH.
Qed.


Lemma accel_vectorE rb q qd tau :
  mass_matrix rne rb q \in unitmx ->
  accel rne rb q qd tau
  = Ok (invmx (mass_matrix rne rb q) *m (tau - tau_bias rne rb q qd)).
Proof.
move=> Mq.
pose w (i : 'I_1) :=
  invmx (mass_matrix rne rb q) *m (tau - tau_bias rne rb q qd).
have wE i : accel_column rne rb (col i q) (col i qd) (col i tau) = Ok (w i).
  by rewrite !col_cV accel_columnE Mq.
rewrite /accel /accel_traj (foldl_accel_ok _ _ wE) (foldl_set_col_enum w) /=.
by congr Ok; apply/colP => i; rewrite !mxE.
Qed.

Lemma accel_trajE k rb (Q QD TORQUE : 'M[F]_(n, k)) :
  (forall i, mass_matrix rne rb (col i Q) \in unitmx) ->
  accel_traj rne rb Q QD TORQUE
  = Ok (\matrix_(r, i)
          (invmx (mass_matrix rne rb (col i Q))
           *m (col i TORQUE - tau_bias rne rb (col i Q) (col i QD))) r 0).
Proof.
move=> MQ.
pose v (i : 'I_k) := invmx (mass_matrix rne rb (col i Q))
                     *m (col i TORQUE - tau_bias rne rb (col i Q) (col i QD)).
have vE i : accel_column rne rb (col i Q) (col i QD) (col i TORQUE) = Ok (v i).
  by rewrite accel_columnE MQ.
by rewrite /accel_traj (foldl_accel_ok _ _ vE) (foldl_set_col_enum v).
Qed.

(** C1.  [accel] returns [M(q)^-1 (tau - tau_bias)], where column [j] of
    [M(q)] is the oracle's torque for the unit acceleration [e_j] at zero
    velocity and zero gravity and [tau_bias] is one oracle call at
    [(q, qd, 0, gravity)]; on a batch, each column of the result is
    that value for the matching columns of the inputs, with its own [M]
    and [tau_bias].  [M(q)^-1] is read where [M(q)] is invertible. *)
Theorem accel_spec k rb q qd tau (Q QD TORQUE : 'M[F]_(n, k)) :
  mass_matrix rne rb q \in unitmx ->
  (forall i, mass_matrix rne rb (col i Q) \in unitmx) ->
  accel rne rb q qd tau
  = Ok (invmx (mass_matrix rne rb q) *m (tau - tau_bias rne rb q qd))
  /\ exists2 qdd, accel_traj rne rb Q QD TORQUE = Ok qdd
     & forall i, col i qdd
                 = invmx (mass_matrix rne rb (col i Q))
                   *m (col i TORQUE - tau_bias rne rb (col i Q) (col i QD)).
Proof.
move=> Mq MQ; split; first exact: accel_vectorE.
rewrite accel_trajE //; eexists; first by [].
by move=> i; apply/colP => r; rewrite !mxE.
Qed.


(** *** [itorque] and [inertia] *)

Lemma itorqueE rb q qdd : itorque rne rb q qdd = rne rb q 0 qdd 0.
Proof.
rewrite /itorque /itorque_traj.
rewrite (foldl_set_col_enum (fun i : 'I_1 => rne rb (col i q) 0 (col i qdd) 0)).
by apply/colP => i; rewrite !mxE !col_cV.
Qed.

Lemma inertiaE rb q : inertia rne rb q = mass_matrix rne rb q.
Proof. by rewrite /inertia /inertia_traj col_cV inertia_planeE. Qed.

(** A map that is linear in the sense of the hypothesis of C5 commutes
    with finite linear combinations. *)
Lemma linear_combination (f : 'cV[F]_n -> 'cV[F]_n) (I : Type)
    (s : seq I) (a : I -> F) (u : I -> 'cV[F]_n) :
  (forall c x y, f (c *: x + y) = c *: f x + f y) ->
  f (\sum_(i <- s) a i *: u i) = \sum_(i <- s) a i *: f (u i).
Proof.
move=> lin.
have f0 : f 0 = 0.
  by apply: (addrI (1 *: f 0)); rewrite -lin !scale1r !addr0.
elim: s => [|i s IH]; first by rewrite !big_nil.
by rewrite !big_cons lin IH.
Qed.

Lemma cV_sum_delta (v : 'cV[F]_n) : v = \sum_(j < n) v j 0 *: delta_mx j 0.
Proof.
apply/colP => i; rewrite summxE (bigD1 i) //= big1 ?addr0.
  by move=> j ji; rewrite !mxE eqxx andbT eq_sym (negbTE ji) mulr0.
by rewrite !mxE !eqxx mulr1.
Qed.

(** C5.  When the oracle is linear in the acceleration at zero velocity
    and zero gravity, the single oracle call of [itorque(q, qdd)] equals
    the product [inertia(q) @ qdd] of the matrix of unit-acceleration
    probes with [qdd]. *)
Theorem itorque_inertia rb q qdd :
  (forall (c : F) (u v : 'cV[F]_n),
      rne rb q 0 (c *: u + v) 0 = c *: rne rb q 0 u 0 + rne rb q 0 v 0) ->
  itorque rne rb q qdd = inertia rne rb q *m qdd.
Proof.
move=> lin; rewrite itorqueE inertiaE {1}(cV_sum_delta qdd).
rewrite (@linear_combination (fun u => rne rb q 0 u 0) _ _ _ _ lin).
apply/colP => i; rewrite summxE !mxE; apply: eq_bigr => j _.
by rewrite !mxE mulrC.
Qed.

(** *** The probing loops of [coriolis] *)

Lemma add_colE k (A : 'M[F]_(n, k)) (j : 'I_k) (v : 'cV[F]_n) :
  add_col A j v = A + \matrix_(r, c) if c == j then v r 0 else 0.
Proof.
apply/matrixP => r c; rewrite !mxE.
by case: eqP => [->|_]; rewrite ?addr0.
Qed.

Lemma add_col_into (A : 'M[F]_n) (j : 'I_n) v : add_col A j v = A + into_col j v.
Proof. exact: add_colE. Qed.

Lemma foldl_add (T : Type) (g : T -> 'M[F]_n) (s : seq T) (A : 'M[F]_n) :
  foldl (fun B x => B + g x) A s = A + \sum_(x <- s) g x.
Proof.
elim: s A => [|x s IH] A /=; first by rewrite big_nil addr0.
by rewrite IH big_cons addrA.
Qed.

Lemma foldl_add_col (f : 'I_n -> 'cV[F]_n) (s : seq 'I_n) (A : 'M[F]_n) :
  foldl (fun B i => add_col B i (f i)) A s = A + \sum_(i <- s) into_col i (f i).
Proof.
elim: s A => [|x s IH] A /=; first by rewrite big_nil addr0.
by rewrite IH big_cons add_col_into addrA.
Qed.

Lemma sum_enum_ord (g : 'I_n -> 'M[F]_n) (P : pred 'I_n) :
  \sum_(i <- [seq i <- enum 'I_n | P i]) g i = \sum_(i < n | P i) g i.
Proof. by rewrite big_filter big_enum_cond /=. Qed.

Lemma set_elem_delta (i : 'I_n) : set_elem 0 i 1 = delta_mx i 0 :> 'cV[F]_n.
Proof.
by apply/colP => c; rewrite !mxE eqxx andbT; case: eqP.
Qed.

Lemma set_elem_pair (i j : 'I_n) :
  (i < j)%N ->
  set_elem (set_elem 0 i 1) j 1 = delta_mx i 0 + delta_mx j 0 :> 'cV[F]_n.
Proof.
move=> ij; apply/colP => c; rewrite !mxE !eqxx !andbT.
case: (c =P j) => [->|_]; last by rewrite addr0; case: eqP.
by rewrite -(inj_eq val_inj j i) /= gtn_eqF // add0r.
Qed.

Lemma times_halfE (v : 'cV[F]_n) (s : F) : times_half v s = (s / 2%:R) *: v.
Proof. by apply/colP => i; rewrite !mxE [RHS]mulrC mulrA. Qed.

Lemma sum_into_col (v : 'I_n -> 'cV[F]_n) :
  \sum_(i < n) into_col i (v i) = \matrix_(r, c) v c r 0.
Proof.
apply/matrixP => r c; rewrite summxE (bigD1 c) //= big1 ?addr0 ?mxE ?eqxx //.
by move=> i ic; rewrite mxE eq_sym (negbTE ic).
Qed.

Lemma coriolis_CsqE r1 q : coriolis_Csq rne r1 q = centripetal_probes rne r1 q.
Proof.
rewrite /coriolis_Csq (foldl_add_col (fun i => rne r1 q (set_elem 0 i 1) 0 0)).
rewrite add0r -[enum _]filter_predT sum_enum_ord sum_into_col.
by apply/matrixP => r c; rewrite !mxE set_elem_delta.
Qed.

Lemma foldl_ext (T R : Type) (f g : R -> T -> R) (s : seq T) (a : R) :
  (forall b x, f b x = g b x) -> foldl f a s = foldl g a s.
Proof. by move=> fg; elim: s a => [|x s IH] a //=; rewrite fg IH. Qed.

Lemma coriolis_pairsE r1 q qd (Csq : 'M[F]_n) :
  coriolis_pairs rne r1 q qd Csq
  = \sum_(i < n) \sum_(j < n | (i < j)%N) pair_update rne r1 q qd Csq i j.
Proof.
pose g (i : 'I_n) := \sum_(j < n | (i < j)%N) pair_update rne r1 q qd Csq i j.
rewrite /coriolis_pairs (@foldl_ext _ _ _ (fun C i => C + g i)) => [C i|].
  rewrite (@foldl_ext _ _ _ (fun B j => B + pair_update rne r1 q qd Csq i j)).
    by move=> B j; rewrite /pair_update /= !add_col_into addrA.
  by rewrite (foldl_add (pair_update rne r1 q qd Csq i)) sum_enum_ord.
by rewrite (foldl_add g) add0r -[enum _]filter_predT sum_enum_ord.
Qed.



End RigidBodyTheory.

(** ** Extended numbers and [np.argmin] *)

Section ExtTheory.

Variable F : archiRealFieldType.

Implicit Types (x y z : ext F) (s : seq (ext F)).

Lemma ege_refl x : ~~ is_nan x -> ege x x.
Proof. by case: x => //= a _. Qed.

Lemma ege_total x y : ~~ is_nan x -> ~~ is_nan y -> ~~ ege x y -> ege y x.
Proof.
case: x => [a|||]; case: y => [b|||] //= _ _.
by rewrite -ltNge => /ltW.
Qed.

Lemma ege_trans y x z : ege x y -> ege y z -> ege x z.
Proof.
case: x => [a|||]; case: y => [b|||]; case: z => [c|||] //=.
by move=> ba cb; apply: le_trans cb ba.
Qed.

(** The scan of [np.argmin] over a list without NaN ends on an index
    whose element is below every element of the list. *)
Lemma argmin_scan_min (L : seq (ext F)) (k i mi : nat) :
  all (fun x => ~~ is_nan x) L ->
  (i + k)%N = size L -> (mi < i)%N ->
  (forall j, (j < i)%N -> ege (nth NaN L j) (nth NaN L mi)) ->
  let r := argmin_scan (nth NaN L mi) mi i (drop i L) in
  (r < size L)%N
  /\ forall j, (j < size L)%N -> ege (nth NaN L j) (nth NaN L r).
Proof.
move=> nn; elim: k i mi => [|k IH] i mi.
  rewrite addn0 => -> mi_lt below; rewrite drop_size /=.
  by split.
rewrite addnS -addSn => sz mi_lt below.
have i_lt : (i < size L)%N by rewrite -sz addSn ltnS leq_addr.
have mi_sz : (mi < size L)%N by apply: ltn_trans i_lt.
rewrite (drop_nth NaN i_lt) /=.
have nn_mp : ~~ is_nan (nth NaN L mi) by apply: (all_nthP _ nn).
have nn_x : ~~ is_nan (nth NaN L i) by apply: (all_nthP _ nn).
rewrite (negbTE nn_mp); case: ifPn => [lt_x|/negPn ge_x].
  apply: IH => // j; rewrite ltnS leq_eqVlt => /orP[/eqP->|ji].
    exact: ege_refl.
  by apply: ege_trans (below _ ji) _; apply: ege_total.
apply: IH => //; first exact: ltnW.
by move=> j; rewrite ltnS leq_eqVlt => /orP[/eqP->|ji] //; apply: below.
Qed.

Lemma argmin_min (s : seq (ext F)) :
  all (fun x => ~~ is_nan x) s -> (0 < size s)%N ->
  (argmin s < size s)%N
  /\ forall j, (j < size s)%N ->
       ege (nth NaN s j) (nth NaN s (argmin s)).
Proof.
case: s => [|x s'] // nn _.
have := @argmin_scan_min (x :: s') (size s') 1 0 nn.
rewrite add1n /= drop0; apply=> // j; rewrite ltnS leqn0 => /eqP-> /=.
by apply: ege_refl; case/andP: nn.
Qed.

End ExtTheory.

(** ** [pay] and [paycap] *)

Section PaycapTheory.

Variable F : archiRealFieldType.
Variable n : nat.
Variable rne :
  Robot F n -> 'cV[F]_n -> 'cV[F]_n -> 'cV[F]_n -> 'cV[F]_3 -> 'cV[F]_n.
Variables jacob0 jacobe : Robot F n -> 'cV[F]_n -> 'M[F]_(6, n).
Variable sqrtF : F -> F.

Implicit Types (rb : Robot F n) (q : 'cV[F]_n) (w : 'cV[F]_6).
Implicit Types (tauR : 'M[F]_(n, 2)) (frame : bool).

Local Notation tauP := (paycap_tauP jacob0 jacobe sqrtF).
Local Notation WM := (paycap_WM rne jacob0 jacobe sqrtF).
Local Notation paycap := (paycap rne jacob0 jacobe sqrtF).

Lemma gravloadE rb q grav :
  gravload rne rb q grav
  = rne rb q 0 0 (if grav is Some g then g else gravity rb).
Proof.
rewrite /gravload /gravload_traj.
rewrite (foldl_set_col_enum
           (fun i : 'I_1 => rne rb (col i q) 0 0
                              (if grav is Some g then g else gravity rb))).
by apply/colP => i; rewrite !mxE col_cV.
Qed.

Lemma size_WM rb w tauR frame q : size (WM rb w tauR frame q) = n.
Proof. by rewrite /paycap_WM size_map size_enum_ord. Qed.

Lemma nth_WM rb w tauR frame q (c : 'I_n) :
  nth NaN (WM rb w tauR frame q) c
  = paycap_factor (tauR c 0) (tauR c 1) (gravload rne rb q None c 0)
                  (tauP rb w frame q c 0).
Proof.
by rewrite /paycap_WM (nth_map c) ?size_enum_ord // nth_ord_enum.
Qed.

(** A sum of finite terms is finite. *)
Lemma big_eadd_fin m (f : 'I_m -> ext F) (a : 'I_m -> F) :
  (forall k, f k = Fin (a k)) ->
  \big[@eadd F/Fin 0]_(k < m) f k = Fin (\sum_(k < m) a k).
Proof.
move=> fa; elim/big_rec2: _ => // k y x _ ->.
by rewrite fa.
Qed.

(** With a wrench of non-zero norm the torque per unit wrench is finite:
    it is [-J.T @ (w / ||w||)]. *)
Lemma tauP_fin rb w frame q (c : 'I_n) :
  norm sqrtF w != 0 ->
  tauP rb w frame q c 0
  = Fin (\sum_(k < 6) - pay_jacobian jacob0 jacobe rb q frame k c
                         * (w k 0 / norm sqrtF w)).
Proof.
move=> /negbTE nz; rewrite /paycap_tauP /pay mxE.
apply: big_eadd_fin => k.
by rewrite /unit_wrench mxE /= nz.
Qed.

(** The scaling factor of a joint whose unit-wrench torque is finite. *)
Lemma paycap_factor_fin (TAUM TAUm tauB a : F) :
  paycap_factor TAUM TAUm tauB (Fin a)
  = if a == 0 then (if TAUm - tauB == 0 then NaN else PInf)
    else Fin (((if 0 < a then TAUM else TAUm) - tauB) / a).
Proof.
rewrite /paycap_factor /=; case: (ltrgt0P a) => [a0|a0|a0] //=.
by case: (ltrgt0P (TAUm - tauB)).
Qed.


Lemma WM_mkseq rb w tauR frame q (f : nat -> ext F) :
  (forall c : 'I_n, nth NaN (WM rb w tauR frame q) c = f c) ->
  WM rb w tauR frame q = mkseq f n.
Proof.
move=> WMf; apply: (@eq_from_nth _ NaN); rewrite size_WM ?size_mkseq // => i i_lt.
by rewrite nth_mkseq // (WMf (Ordinal i_lt)).
Qed.

Lemma assign_wmax6 (f : nat -> ext F) :
  assign_wmax (mkseq f 6) = Ok (\col_(i < 6) f i).
Proof.
rewrite /assign_wmax size_mkseq eqxx; congr Ok.
by apply/colP => i; rewrite !mxE nth_mkseq.
Qed.

End PaycapTheory.

(** ** Forward dynamics *)

Section FdynTheory.

Variable F : archiRealFieldType.
Variable n : nat.
Variable rne :
  Robot F n -> 'cV[F]_n -> 'cV[F]_n -> 'cV[F]_n -> 'cV[F]_3 -> 'cV[F]_n.
Variables targs_t sargs_t : Type.
Variable integrate_dict : string -> option (Solver F n sargs_t).

Implicit Types (rb : Robot F n) (x : state F n) (t T : F).
Implicit Types (torqfun : option (torque_law F n targs_t)) (targs : targs_t).
Implicit Types (sv : Solver F n sargs_t) (f : F -> state F n -> result (state F n)).
Implicit Types (log : seq (F * state F n)) (fuel : nat).

Local Notation fdyn := (fdyn rne integrate_dict).
Local Notation fdyn_run := (fdyn_run rne integrate_dict).
Local Notation fdyn_samples := (fdyn_samples rne integrate_dict).

(** *** The derivative function *)

Lemma _fdyn_contract rb t x (tf : torque_law F n targs_t) targs tau :
  tf rb t (usubmx x) (dsubmx x) targs = Ok tau ->
  (size tau != n) || ~~ all (@isreal F) tau ->
  _fdyn rne rb t x (Some tf) targs = Raise (RuntimeError msg_torque_contract).
Proof. by rewrite /_fdyn => -> /= ->. Qed.

Lemma _fdyn_no_law rb t x targs :
  _fdyn rne rb t x None targs
  = (qdd <~ accel rne rb (usubmx x) (dsubmx x) 0 ;; Ok (col_mx (dsubmx x) qdd)).
Proof. by []. Qed.

(** *** Exceptions of the derivative function reach the caller *)

Lemma run_prog_raise (A : Type) f (p : solver_prog F n A) t x e :
  (t, x) \in (run_prog f p).2 -> f t x = Raise e ->
  (run_prog f p).1 = Raise e.
Proof.
elim: p => [a|e'|u y k IH] //=.
case fy: (f u y) => [dy|e'] /=.
  case rk: (run_prog f (k dy)) => [r log] /=.
  rewrite in_cons => /orP[/eqP[-> ->]|]; first by rewrite fy.
  by move=> in_log ft; have := IH dy; rewrite rk; apply.
by rewrite mem_seq1 => /eqP[-> ->]; rewrite fy => -[->].
Qed.

Lemma fdyn_loop_raise sv f fuel (s : solver_obj sv) tl xl t x e :
  (t, x) \in (fdyn_loop f fuel s tl xl).2 -> f t x = Raise e ->
  (fdyn_loop f fuel s tl xl).1 = Raises e.
Proof.
elim: fuel s tl xl => [|fuel IH] s tl xl /=; first by case: (status s).
case: (status s) => //.
have := @run_prog_raise _ f (solver_step s) t x e.
case: (run_prog f (solver_step s)) => [[s'|e'] log] /= in_step; last first.
  by move=> in_log ft; have [->] := in_step in_log ft.
have := IH s' (rcons tl (solver_t s')) (rcons xl (solver_y s')).
case: (fdyn_loop _ _ _ _ _) => [o log'] /= in_rest.
have in_cat : (t, x) \in log ++ log' -> f t x = Raise e -> o = Raises e.
  rewrite mem_cat => /orP[in_log|in_log'] ft; last exact: in_rest.
  by have := in_step in_log ft.
by case: (status s') => //= in_log ft; have := in_step in_log ft.
Qed.

Lemma fdyn_samples_raise rb T q0 torqfun targs qd0 solver sargs fuel t x e :
  (t, x) \in (fdyn_samples rb T q0 torqfun targs qd0 solver sargs fuel).2 ->
  _fdyn rne rb t x torqfun targs = Raise e ->
  (fdyn_samples rb T q0 torqfun targs qd0 solver sargs fuel).1 = Raises e.
Proof.
rewrite /fdyn_samples; case: (integrate_dict solver) => [sv|] //=.
set f := fun t y => _fdyn rne rb t y torqfun targs.
set x0 := col_mx q0 _.
have := @run_prog_raise _ f (solver_new sv 0 x0 T sargs) t x e.
case: (run_prog f _) => [[s|e'] log0] /= in_new; last first.
  by move=> in_log ft; have [->] := in_new in_log ft.
have := @fdyn_loop_raise sv f fuel s [:: 0] [:: x0] t x e.
case: (fdyn_loop _ _ _ _ _) => [o log1] /= in_loop.
rewrite mem_cat => /orP[in_log|in_log] ft; last exact: in_loop.
by have := in_new in_log ft.
Qed.

Lemma fdyn_run_log rb T q0 torqfun targs qd0 solver sargs dt fuel :
  (fdyn_run rb T q0 torqfun targs qd0 solver sargs dt fuel).2
  = (fdyn_samples rb T q0 torqfun targs qd0 solver sargs fuel).2.
Proof. by rewrite /fdyn_run; case: (fdyn_samples _ _ _ _ _ _ _ _ _). Qed.

Lemma fdyn_of_samples rb T q0 torqfun targs qd0 solver sargs dt fuel :
  fdyn rb T q0 torqfun targs qd0 solver sargs dt fuel
  = match (fdyn_samples rb T q0 torqfun targs qd0 solver sargs fuel).1 with
    | Returns (tarray, xarray) =>
        match fdyn_output T dt tarray xarray with
        | Ok tg => Returns tg
        | Raise e => Raises e
        end
    | Raises e => Raises e
    | Diverges => Diverges
    end.
Proof.
by rewrite /fdyn /fdyn_run; case: (fdyn_samples _ _ _ _ _ _ _ _ _).
Qed.

(** C7.  Without a torque law the torque of a step is the zero vector of
    length [n].  With one: if at any derivative evaluation of the run, in
    the constructor of the integrator or in any step, the law returns a
    vector whose length is not [n] or that has a non-real element, then
    [fdyn] raises the error of the torque contract and returns no
    trajectory, whatever the fuel and with or without resampling. *)
Theorem fdyn_torque_contract rb T q0 (tf : torque_law F n targs_t) targs qd0
    solver sargs dt fuel :
  (forall t x,
      _fdyn rne rb t x None targs
      = (qdd <~ accel rne rb (usubmx x) (dsubmx x) 0 ;;
         Ok (col_mx (dsubmx x) qdd)))
  /\ (forall t x tau,
        (t, x) \in (fdyn_run rb T q0 (Some tf) targs qd0 solver sargs dt fuel).2 ->
        tf rb t (usubmx x) (dsubmx x) targs = Ok tau ->
        (size tau != n) || ~~ all (@isreal F) tau ->
        fdyn rb T q0 (Some tf) targs qd0 solver sargs dt fuel
        = Raises (RuntimeError msg_torque_contract)).
Proof.
split=> // t x tau; rewrite fdyn_run_log fdyn_of_samples => in_log tf_tau bad.
by rewrite (fdyn_samples_raise in_log (_fdyn_contract tf_tau bad)).
Qed.

(** *** Failure of the integrator *)

Lemma fdyn_loop_failure sv f k fuel (s last : solver_obj sv) tl xl :
  (forall i, (i <= k)%N ->
     exists2 s', solver_after f i s = Ok s' & status s' = running) ->
  solver_after f k.+1 s = Ok last -> status last = failed ->
  (k < fuel)%N ->
  (fdyn_loop f fuel s tl xl).1 = Raises (RuntimeError msg_integration_failed).
Proof.
elim: k fuel s tl xl => [|k IH] [|fuel] s tl xl // run_k after_last st_last lt_fuel.
  have [s0 [<-] st0] := run_k 0%N (leqnn _).
  move: after_last; rewrite /= st0.
  by case: (run_prog f (solver_step s)) => [[s'|e] log] //= [->]; rewrite st_last.
have [s0 [<-] st0] := run_k 0%N (leq0n _).
have {}run_k i : (i <= k)%N ->
    exists2 s', (x <~ (run_prog f (solver_step s)).1 ;; solver_after f i x)
                = Ok s' & status s' = running.
  by move=> ik; apply: (run_k i.+1).
move: after_last run_k; rewrite [fdyn_loop _ _ _ _ _]/= st0.
rewrite [solver_after f k.+2 s]/=.
case: (run_prog f (solver_step s)) => [[s'|e] log] //= after_last run_k'.
have [s1 [<-] ->] := run_k' 0%N (leq0n _).
have := IH fuel s' (rcons tl (solver_t s')) (rcons xl (solver_y s'))
           run_k' after_last st_last lt_fuel.
by case: (fdyn_loop _ _ _ _ _) => [o log'] /= ->.
Qed.

(** C8.  When the integrator, after [k] steps that leave it running,
    reports the status [failed] after the next step, [fdyn] raises the
    run-failure error, which is not the error of the torque contract, and
    returns no trajectory. *)
Theorem fdyn_integrator_failure rb T q0 torqfun targs qd0 solver sargs dt
    sv (integrator last : solver_obj sv) k fuel :
  let f := fun t y => _fdyn rne rb t y torqfun targs in
  let x0 := col_mx q0 (if qd0 is Some qd0 then qd0 else 0) in
  integrate_dict solver = Some sv ->
  (run_prog f (solver_new sv 0 x0 T sargs)).1 = Ok integrator ->
  (forall i, (i <= k)%N ->
     exists2 s', solver_after f i integrator = Ok s' & status s' = running) ->
  solver_after f k.+1 integrator = Ok last -> status last = failed ->
  (k < fuel)%N ->
  fdyn rb T q0 torqfun targs qd0 solver sargs dt fuel
  = Raises (RuntimeError msg_integration_failed)
  /\ RuntimeError msg_integration_failed <> RuntimeError msg_torque_contract.
Proof.
move=> f x0 dict new run_k after_last st_last lt_fuel; split=> //.
rewrite fdyn_of_samples /fdyn_samples dict -/f -/x0.
case: (run_prog f _) new => [r log0] /= ->.
have := @fdyn_loop_failure sv f k fuel integrator last [:: 0] [:: x0]
          run_k after_last st_last lt_fuel.
by case: (fdyn_loop _ _ _ _ _) => [o log1] /= ->.
Qed.

(** *** The samples of a run *)

Lemma fdyn_loop_returns sv f fuel (s : solver_obj sv) tl xl ta xa :
  size tl = size xl ->
  (fdyn_loop f fuel s tl xl).1 = Returns (ta, xa) ->
  exists tl' xl', [/\ ta = tl ++ tl', xa = xl ++ xl' & size ta = size xa].
Proof.
elim: fuel s tl xl => [|fuel IH] s tl xl sz /=.
  by case: (status s) => //= -[<- <-]; exists [::], [::]; rewrite !cats0.
case: (status s) => /=; last 2 first.
- by case=> <- <-; exists [::], [::]; rewrite !cats0.
- by case=> <- <-; exists [::], [::]; rewrite !cats0.
case: (run_prog f (solver_step s)) => [[s'|e] log] //=.
have := IH s' (rcons tl (solver_t s')) (rcons xl (solver_y s')).
rewrite !size_rcons sz => /(_ erefl).
case: (fdyn_loop _ _ _ _ _) => [o log'] /= IH'.
case: (status s') => //= /IH' [tl' [xl' [-> -> sz']]].
- by exists (solver_t s' :: tl'), (solver_y s' :: xl'); rewrite -!cat_rcons.
- by exists (solver_t s' :: tl'), (solver_y s' :: xl'); rewrite -!cat_rcons.
Qed.

Lemma fdyn_samples_returns rb T q0 torqfun targs qd0 solver sargs fuel ta xa :
  (fdyn_samples rb T q0 torqfun targs qd0 solver sargs fuel).1
  = Returns (ta, xa) ->
  exists ts xs,
    [/\ ta = 0 :: ts,
        xa = col_mx q0 (if qd0 is Some qd0 then qd0 else 0) :: xs
      & size ts = size xs].
Proof.
rewrite /fdyn_samples; case: (integrate_dict solver) => [sv|] //=.
case: (run_prog _ _) => [[s|e] log0] //=.
set f := fun t y => _fdyn rne rb t y torqfun targs.
set x0 := col_mx q0 _.
have := @fdyn_loop_returns sv f fuel s [:: 0] [:: x0] ta xa erefl.
case: (fdyn_loop _ _ _ _ _) => [o log1] /= H /H [tl' [xl' [-> -> /= [sz]]]].
by exists tl', xl'.
Qed.


(** *** Resampling *)










(** *** Evaluation lemmas *)


(** A run whose integrator finishes with its first step. *)
Lemma fdyn_samples_one_step rb T q0 torqfun targs qd0 solver sargs fuel
    sv (s0 s1 : solver_obj sv) log0 log1 :
  let f := fun t y => _fdyn rne rb t y torqfun targs in
  let x0 := col_mx q0 (if qd0 is Some qd0 then qd0 else 0) in
  integrate_dict solver = Some sv ->
  run_prog f (solver_new sv 0 x0 T sargs) = (Ok s0, log0) ->
  status s0 = running ->
  run_prog f (solver_step s0) = (Ok s1, log1) ->
  status s1 = finished ->
  fdyn_samples rb T q0 torqfun targs qd0 solver sargs fuel.+1
  = (Returns ([:: 0; solver_t s1], [:: x0; solver_y s1]), log0 ++ log1 ++ [::]).
Proof.
move=> f x0 dict new st0 step st1.
rewrite /fdyn_samples dict -/f -/x0 new /= st0 step st1 /=.
by case: fuel => [|fuel] /=; rewrite st1.
Qed.



End FdynTheory.

(** ** The variant factory *)

Section VariantFactoryTheory.

Variable F : archiRealFieldType.
Variable n : nat.
Variable rng_t : Type.
Variable random : rng_t -> F * rng_t.

Implicit Types (s : store F n rng_t) (ls : seq nat) (g : Link F -> Link F).

Lemma get_link_rcons s (l : Link F) a :
  (a < size (link_objs s))%N ->
  get_link (mkStore (rcons (link_objs s) l) (robot_objs s) (rng s)) a
  = get_link s a.
Proof. by move=> a_lt; rewrite /get_link /= nth_rcons a_lt. Qed.

(** A comprehension that allocates one new link per source link, from
    the value of the source link: the new links take the next addresses
    and the store only grows. *)
Lemma for_links_new g ls s :
  all (fun a => (a < size (link_objs s))%N) ls ->
  for_links (fun a s => new_link (g (get_link s a)) s) ls s
  = (iota (size (link_objs s)) (size ls),
     mkStore (link_objs s ++ [seq g (get_link s a) | a <- ls])
             (robot_objs s) (rng s)).
Proof.
elim: ls s => [|a ls IH] s /=; first by rewrite cats0; case: s.
case/andP=> a_lt valid.
have valid' : all (fun b => (b < (size (link_objs s)).+1)%N) ls.
  by apply: sub_all valid => b /ltnW.
rewrite IH /= ?size_rcons // cat_rcons; congr (_, mkStore (_ ++ _ :: _) _ _).
by apply/eq_in_map => b /(allP valid) b_lt; rewrite get_link_rcons.
Qed.

Lemma set_nth_rcons (T : Type) (x0 : T) (r : seq T) (x y : T) :
  set_nth x0 (rcons r x) (size r) y = rcons r y.
Proof. by elim: r => [|z r IH] //=; rewrite IH. Qed.

Lemma nth_rcons_size (T : Type) (x0 : T) (r : seq T) (x : T) :
  nth x0 (rcons r x) (size r) = x.
Proof. by rewrite nth_rcons ltnn eqxx. Qed.


Lemma _copyE s self :
  valid_robot s self ->
  let r := get_robot s self in
  _copy self s
  = (size (robot_objs s),
     mkStore (link_objs s ++ [seq get_link s a | a <- obj_links r])
       (rcons (robot_objs s)
          (mkRobotObj (obj_name r)
             (iota (size (link_objs s)) (size (obj_links r)))
             (obj_gravity r) (obj_q r)))
       (rng s)).
Proof.
case/andP=> self_lt valid /=; rewrite /_copy.
by rewrite (for_links_new id) //= map_id.
Qed.

(** One iteration of the loop of [perterb] writes one link only. *)
Lemma perterb_link_frame r2 p s i :
  let s' := perterb_link random r2 p s i in
  robot_objs s' = robot_objs s
  /\ forall b, b != nth 0%N (obj_links (get_robot s r2)) i ->
               get_link s' b = get_link s b.
Proof.
rewrite /perterb_link; case: (random (rng s)) => [u g] /=.
case: (random g) => [u' g'] /=; split=> // b ba.
rewrite /get_link /get_robot /= in ba *.
by do 2 rewrite nth_set_nth /= (negbTE ba).
Qed.

Lemma perterb_loop_frame r2 p (base : nat) (idx : seq nat) s :
  (forall i, i \in idx ->
     (base <= nth 0%N (obj_links (get_robot s r2)) i)%N) ->
  let s' := foldl (perterb_link random r2 p) s idx in
  robot_objs s' = robot_objs s
  /\ forall b, (b < base)%N -> get_link s' b = get_link s b.
Proof.
elim: idx s => [|i idx IH] s //= above.
have [robots links] := perterb_link_frame r2 p s i.
have [|-> links'] := IH (perterb_link random r2 p s i).
  by move=> j j_in; rewrite /get_robot robots; apply: above; rewrite in_cons j_in orbT.
split=> // b b_lt; rewrite links' // links //.
by rewrite neq_ltn (leq_trans b_lt) // above // mem_head.
Qed.




Lemma perterb_frame s self p :
  valid_robot s self ->
  let r := get_robot s self in
  let r2 := (perterb random self p s).1 in
  let s2 := (perterb random self p s).2 in
  [/\ r2 = size (robot_objs s),
      robot_objs s2
      = rcons (robot_objs s)
          (mkRobotObj ("P/" ++ obj_name r)
             (iota (size (link_objs s)) (size (obj_links r)))
             (obj_gravity r) (obj_q r))
    & forall b, (b < size (link_objs s))%N -> get_link s2 b = get_link s b].
Proof.
move=> valid; have /andP[self_lt valid_links] := valid.
have get_self r' : nth (no_robot F n) (rcons (robot_objs s) r') self
                   = get_robot s self.
  by rewrite nth_rcons self_lt.
rewrite /perterb _copyE // /set_robot /get_robot /=.
rewrite !nth_rcons_size /= !get_self set_nth_rcons get_self -/(get_robot s self).
set L := link_objs s; set R := robot_objs s; set r := get_robot s self.
set sN := mkStore _ _ _.
have [|robots links] :=
    @perterb_loop_frame (size R) p (size L) (iota 0 (size (obj_links r))) sN.
  move=> i; rewrite mem_iota add0n /= => i_lt.
  by rewrite /get_robot /= nth_rcons_size /= nth_iota // leq_addr.
split=> // b b_lt; rewrite links //.
by rewrite /get_link /= nth_cat b_lt.
Qed.


End VariantFactoryTheory.

(** ** Evaluations on the instances *)

Section Instances.

Lemma mass_matrix_unit n (rb : Robot rat n) (q : 'cV[rat]_n) :
  mass_matrix (@unit_rne n) rb q = 1%:M.
Proof. by apply/matrixP => i j; rewrite !mxE eqxx andbT. Qed.

(** Witness of C1: the unit oracle on two joints, a batch of three. *)
Lemma accel_spec_witness :
  accel (@unit_rne 2) (demo_robot 2) 0 0 (const_mx 1)
  = Ok (invmx (mass_matrix (@unit_rne 2) (demo_robot 2) 0)
        *m (const_mx 1 - tau_bias (@unit_rne 2) (demo_robot 2) 0 0))
  /\ exists2 qdd,
       accel_traj (@unit_rne 2) (demo_robot 2) (0 : 'M_(2, 3)) 0 (const_mx 1)
       = Ok qdd
     & forall i,
         col i qdd
         = invmx (mass_matrix (@unit_rne 2) (demo_robot 2) (col i 0))
           *m (col i (const_mx 1)
               - tau_bias (@unit_rne 2) (demo_robot 2) (col i 0) (col i 0)).
Proof.
by apply: accel_spec => [|i]; rewrite mass_matrix_unit unitmx1.
Defined.

(** Witness of C5: the unit oracle is linear in the acceleration. *)
Lemma itorque_inertia_witness :
  itorque (@unit_rne 2) (demo_robot 2) 0 (const_mx 1)
  = inertia (@unit_rne 2) (demo_robot 2) 0 *m const_mx 1.
Proof. by apply: itorque_inertia. Defined.

(** *** Runs of [fdyn] *)

Lemma _fdyn_unit n (x : state rat n) (t : rat) :
  _fdyn (@unit_rne n) (demo_robot n) t x None tt = Ok (demo_deriv x).
Proof.
by rewrite /_fdyn /demo_deriv /= accel_vectorE mass_matrix_unit ?unitmx1.
Qed.

Lemma euler_samples n (q0 : 'cV[rat]_n) (T : rat) fuel :
  fdyn_samples (@unit_rne n) (@demo_dict n) (demo_robot n) T q0 None tt None
               "Euler" tt fuel.+1
  = (Returns ([:: 0; T], [:: demo_x0 q0; demo_x1 q0 T]),
     [:: (0, demo_x0 q0)]).
Proof.
rewrite (@fdyn_samples_one_step _ _ _ _ _ _ _ _ _ _ _ _ _ _ _ (euler_solver n)
           (0, demo_x0 q0, T, running) (T, demo_x1 q0 T, T, finished)
           [::] [:: (0, demo_x0 q0)]) //=.
by rewrite _fdyn_unit.
Qed.

Lemma euler_raw n (q0 : 'cV[rat]_n) (T : rat) fuel :
  fdyn (@unit_rne n) (@demo_dict n) (demo_robot n) T q0 None tt None
       "Euler" tt None fuel.+1
  = Returns (demo_raw q0 T).
Proof. by rewrite fdyn_of_samples euler_samples. Qed.


(** Witness of C7: a torque law that returns an empty vector for a robot
    of one joint; it is called in the first step. *)
Lemma fdyn_torque_contract_witness :
  fdyn (@unit_rne 1) (@demo_dict 1) (demo_robot 1) 1 (const_mx 1)
       (Some (@empty_law 1)) tt None "Euler" tt None 1
  = Raises (RuntimeError msg_torque_contract).
Proof.
have [_ contract] :=
  @fdyn_torque_contract rat 1 (@unit_rne 1) unit unit (@demo_dict 1)
    (demo_robot 1) 1 (const_mx 1) (@empty_law 1) tt None "Euler" tt None 1.
apply: (contract 0 (demo_x0 (const_mx 1)) [::]) => //.
by rewrite /fdyn_run /fdyn_samples /= mem_seq1.
Defined.

(** Witness of C8: an integrator that reports failure after its first
    step. *)
Lemma fdyn_integrator_failure_witness :
  fdyn (@unit_rne 1) (@demo_dict 1) (demo_robot 1) 1 (const_mx 1)
       None tt None "Stuck" tt None 1
  = Raises (RuntimeError msg_integration_failed)
  /\ RuntimeError msg_integration_failed <> RuntimeError msg_torque_contract.
Proof.
apply: (@fdyn_integrator_failure rat 1 (@unit_rne 1) unit unit (@demo_dict 1)
          (demo_robot 1) 1 (const_mx 1) None tt None "Stuck" tt None
          (stuck_solver 1)
          (0, demo_x0 (const_mx 1), 1, running)
          (0, demo_x0 (const_mx 1), 1, failed) 0 1) => //.
by case=> // _; exists (0, demo_x0 (const_mx 1), 1, running).
Defined.

(** *** The first sample *)






(** *** [paycap] on the six-joint arm *)

Lemma gravload_unit n (rb : Robot rat n) (q : 'cV[rat]_n) grav :
  gravload (@unit_rne n) rb q grav = 0.
Proof. by rewrite gravloadE. Qed.


Lemma norm_force_x : norm rat_sqrt force_x = 1.
Proof.
rewrite /norm (bigD1 ord0) //= big1 ?addr0 => [k k0|].
  rewrite mxE; case: eqP => [k0'|_]; last by rewrite expr0n.
  by case/eqP: k0; apply: val_inj.
by rewrite mxE eqxx expr1n.
Qed.

Lemma demo_tauR_max n (c : 'I_n) : demo_tauR n c 0 = 12%:R.
Proof. by rewrite mxE. Qed.

Lemma demo_tauR_min n (c : 'I_n) : demo_tauR n c 1 = - 12%:R.
Proof. by rewrite mxE. Qed.




(** On the ramp arm the unit force along x loads joint [c] with [c + 1]. *)
Lemma tauP_ramp (c : 'I_6) :
  paycap_tauP (fun _ _ => ramp_jacobian) (fun _ _ => ramp_jacobian)
              rat_sqrt (demo_robot 6) force_x true 0 c 0
  = Fin (c.+1)%:R.
Proof.
rewrite tauP_fin norm_force_x ?oner_neq0 //; congr Fin.
rewrite (bigD1 ord0) //= big1 ?addr0 => [k k0|].
  rewrite /pay_jacobian !mxE divr1; case: eqP => [k0'|_]; last by rewrite oppr0 mul0r.
  by case/eqP: k0; apply: val_inj.
by rewrite /pay_jacobian !mxE /= opprK divr1.
Qed.

Lemma WM_ramp :
  paycap_WM (@unit_rne 6) (fun _ _ => ramp_jacobian)
            (fun _ _ => ramp_jacobian) rat_sqrt (demo_robot 6) force_x
            (demo_tauR 6) true 0
  = mkseq (fun i => Fin (12%:R / (i.+1)%:R)) 6.
Proof.
apply: WM_mkseq => c.
rewrite nth_WM tauP_ramp paycap_factor_fin pnatr_eq0 ltr0n /=.
by rewrite gravload_unit demo_tauR_max mxE subr0.
Qed.

Lemma argmin_ramp :
  argmin (mkseq (fun i => Fin (12%:R / (i.+1)%:R : rat)) 6) = 5%N.
Proof. by vm_compute. Qed.


(** C4.  On the ramp arm, with the limits [+12] and [-12] and the unit
    force along x, the first result of [paycap] is the vector of the six
    per-joint scaling factors [12 / (c + 1)], and the second the joint 5
    of the least factor, [2].  The maximal permissible wrench is the
    force of magnitude [2] along x, which the value returned is not. *)
Theorem paycap_returns_joint_factors :
  paycap (@unit_rne 6) (fun _ _ => ramp_jacobian) (fun _ _ => ramp_jacobian)
         rat_sqrt (demo_robot 6) force_x (demo_tauR 6) true (Some 0)
  = Ok (\col_c Fin (12%:R / (c.+1)%:R), 5%N)
  /\ (\col_c Fin (12%:R / (c.+1)%:R) : 'cV[ext rat]_6)
     <> \col_k Fin (2%:R * force_x k 0).
Proof.
split.
  rewrite /paycap [paycap_WM _ _ _ _ _ _ _ _ _]WM_ramp.
  by rewrite assign_wmax6 argmin_ramp.
by move/colP/(_ ord0); rewrite !mxE eqxx => -[].
Qed.

(** The same defect on a robot whose number of joints is neither 6 nor 1:
    the assignment [wmax[:, i] = WM] raises. *)
Lemma paycap_two_joints_raises (jacob0 jacobe : Robot rat 2 -> 'cV[rat]_2 -> 'M[rat]_(6, 2))
    (rb : Robot rat 2) (w : 'cV[rat]_6) (tauR : 'M[rat]_(2, 2)) frame q :
  paycap (@unit_rne 2) jacob0 jacobe rat_sqrt rb w tauR frame q
  = Raise (ValueError msg_broadcast).
Proof. by rewrite /paycap /assign_wmax size_WM. Qed.

End Instances.

(** * Further properties of the methods *)

Section DynamicsIdentities.

Variable F : archiRealFieldType.
Variable n : nat.
Variable rne :
  Robot F n -> 'cV[F]_n -> 'cV[F]_n -> 'cV[F]_n -> 'cV[F]_3 -> 'cV[F]_n.

Implicit Types (rb : Robot F n) (q qd qdd tau : 'cV[F]_n).

(** ** Forward and inverse dynamics *)

(** [accel] undoes the oracle: where the oracle is affine in the
    acceleration, with an invertible mass matrix, the acceleration computed
    from the torque [rne(q, qd, qdd)] is [qdd]. *)
Theorem accel_inverts_rne rb q qd qdd :
  mass_matrix rne rb q \in unitmx ->
  affine_in_acceleration rne rb q qd ->
  accel rne rb q qd (rne rb q qd qdd (gravity rb)) = Ok qdd.
Proof.
move=> Mu aff; rewrite accel_vectorE // aff addrK.
by rewrite mulKmx.
Qed.




(** ** [coriolis] *)

Lemma coriolis_probesE rb q qd :
  coriolis rne rb q qd
  = coriolis_by_probes rne (nofriction rb true true) q qd.
Proof.
rewrite /coriolis /coriolis_by_probes coriolis_CsqE coriolis_pairsE.
congr (_ + _); apply: eq_bigr => i _; apply: eq_bigr => j ij.
rewrite /pair_update /= set_elem_pair // !times_halfE /cross_term.
by rewrite [_ - col j _ - col i _]addrAC.
Qed.

Lemma into_colD (j : 'I_n) (x y : 'cV[F]_n) :
  into_col j (x + y) = into_col j x + into_col j y.
Proof. by apply/matrixP => r c; rewrite !mxE; case: ifP; rewrite ?addr0. Qed.

Lemma into_colZ (j : 'I_n) (a : F) (x : 'cV[F]_n) :
  into_col j (a *: x) = a *: into_col j x.
Proof. by apply/matrixP => r c; rewrite !mxE; case: ifP; rewrite ?mulr0. Qed.

Lemma coriolis_by_probes_linear (r1 : Robot F n) q (a : F) (u v : 'cV[F]_n) :
  coriolis_by_probes rne r1 q (a *: u + v)
  = a *: coriolis_by_probes rne r1 q u + coriolis_by_probes rne r1 q v.
Proof.
rewrite /coriolis_by_probes; set Csq := centripetal_probes _ _ _.
rewrite [(_ + _)^T]linearP [diag_mx _]linearP /= mulmxDr -scalemxAr.
rewrite scalerDr addrACA; congr (_ + _).
rewrite scaler_sumr -big_split /=; apply: eq_bigr => i _.
rewrite scaler_sumr -big_split /=; apply: eq_bigr => j _.
rewrite !mxE !mulrDl -!mulrA !scalerDl !into_colD -!scalerA !into_colZ.
by rewrite scalerDr addrACA.
Qed.

(** The Coriolis matrix is linear in the joint velocity. *)
Theorem coriolis_linear rb q (a : F) (u v : 'cV[F]_n) :
  coriolis rne rb q (a *: u + v)
  = a *: coriolis rne rb q u + coriolis rne rb q v.
Proof. by rewrite !coriolis_probesE coriolis_by_probes_linear. Qed.

(** At rest the Coriolis matrix is zero. *)
Theorem coriolis_at_rest rb q : coriolis rne rb q 0 = 0.
Proof.
have := coriolis_by_probes_linear (nofriction rb true true) q (-1) 0 0.
by rewrite coriolis_probesE scaler0 add0r scaleN1r addNr.
Qed.

(** *** The velocity torque *)

Lemma sum_delta (i : 'I_n) (g : 'I_n -> F) :
  \sum_(a < n) g a * (delta_mx i 0 : 'cV[F]_n) a 0 = g i.
Proof.
rewrite (bigD1 i) //= mxE !eqxx mulr1 big1 ?addr0 // => a ne.
by rewrite mxE (negbTE ne) mulr0.
Qed.

Lemma bilinear_delta (g : 'I_n -> 'I_n -> F) (i j : 'I_n) :
  \sum_(a < n) \sum_(b < n)
     g a b * (delta_mx i 0 : 'cV[F]_n) a 0 * (delta_mx j 0 : 'cV[F]_n) b 0
  = g i j.
Proof.
under eq_bigr => a _ do
  rewrite (sum_delta j (fun b => g a b * (delta_mx i 0 : 'cV[F]_n) a 0)).
by rewrite (sum_delta i (fun a => g a j)).
Qed.

Lemma quadratic_pair (g : 'I_n -> 'I_n -> F) (i j : 'I_n) :
  \sum_(a < n) \sum_(b < n)
     g a b * (delta_mx i 0 + delta_mx j 0 : 'cV[F]_n) a 0
           * (delta_mx i 0 + delta_mx j 0 : 'cV[F]_n) b 0
  = g i i + g i j + (g j i + g j j).
Proof.
rewrite -!bilinear_delta -!big_split /=; apply: eq_bigr => a _.
rewrite -!big_split /=; apply: eq_bigr => b _.
by rewrite !mxE !mulrDr !mulrDl addrACA.
Qed.

(** A sum over a square is the sum over its diagonal and over the pairs
    [i < j], each pair counted in both orders. *)
Lemma sum_square_pairs (f : 'I_n -> 'I_n -> F) :
  \sum_(i < n) \sum_(j < n) f i j
  = \sum_(i < n) \sum_(j < n | (i < j)%N) (f i j + f j i) + \sum_(i < n) f i i.
Proof.
have split_row (i : 'I_n) :
    \sum_(j < n) f i j
    = \sum_(j < n | (j < i)%N) f i j
      + (f i i + \sum_(j < n | (i < j)%N) f i j).
  rewrite (bigID (fun j : 'I_n => (j < i)%N)) /=; congr (_ + _).
  rewrite (bigD1 i) ?ltnn //=; congr (_ + _).
  apply: eq_bigl => j; rewrite -leqNgt ltn_neqAle andbC.
  by rewrite (eq_sym (i : nat)).
rewrite (eq_bigr _ (fun i _ => split_row i)) big_split /= big_split /=.
rewrite (exchange_big_dep predT) //=.
under [in RHS]eq_bigr => i _ do rewrite big_split /=.
rewrite big_split /= addrCA addrC.
by congr (_ + _); rewrite addrC.
Qed.

Lemma half_pair (a b x y : F) :
  b * (a / 2%:R * (x + y)) + a * (b / 2%:R * (x + y)) = x * a * b + y * b * a.
Proof.
have h2 : 2%:R^-1 + 2%:R^-1 = 1 :> F.
  by rewrite -mulr2n -mulr_natr mulVf // pnatr_eq0.
rewrite !mulrA [b * a]mulrC [a * b * _ * _]mulrAC -mulrDr h2 mulr1 mulrDr.
by rewrite -[x * a * b]mulrA [x * _]mulrC -[y * b * a]mulrA [y * _]mulrC [b * a]mulrC.
Qed.

Lemma into_col_mul (j : 'I_n) (v qd : 'cV[F]_n) :
  into_col j v *m qd = qd j 0 *: v.
Proof.
apply/colP => r; rewrite !mxE (bigD1 j) //= mxE eqxx big1 ?addr0 1?mulrC //.
by move=> c ne; rewrite mxE (negbTE ne) mul0r.
Qed.

(** When the velocity torque of the friction-free robot is a quadratic
    form in the joint velocity, the product of the Coriolis matrix with the
    velocity is that torque. *)
Theorem coriolis_velocity_torque rb q qd (G : 'I_n -> 'I_n -> 'I_n -> F) :
  quadratic_velocity_torque rne (nofriction rb true true) q G ->
  coriolis rne rb q qd *m qd = rne (nofriction rb true true) q qd 0 0.
Proof.
set r1 := nofriction rb true true => quad.
have probe1 (i r : 'I_n) : centripetal_probes rne r1 q r i = G r i i.
  by rewrite !mxE quad (bilinear_delta (G r)).
have probe2 (i j r : 'I_n) : cross_term rne r1 q i j r 0 = G r i j + G r j i.
  rewrite !mxE !quad (quadratic_pair (G r)) !(bilinear_delta (G r)).
  apply/eqP; rewrite !subr_eq; apply/eqP.
  by rewrite [_ + G r i i]addrC -[G r i i + _ + _]addrA [G r i j + _]addrA.
rewrite coriolis_probesE /coriolis_by_probes -/r1 mulmxDl mulmx_suml.
apply/colP => r; rewrite mxE summxE quad sum_square_pairs; congr (_ + _).
  apply: eq_bigr => i _; rewrite mulmx_suml summxE; apply: eq_bigr => j _.
  move: (cross_term rne r1 q i j) (probe2 i j r) => ct ctE.
  rewrite mulmxDl !into_col_mul !mxE ctE.
  exact: half_pair.
rewrite mul_mx_diag mxE; apply: eq_bigr => c _.
by rewrite mxE probe1 mxE.
Qed.

(** ** Trajectories *)

(** [itorque] on a trajectory computes each column as [itorque] does on
    the columns of [q] and [qdd]. *)
Theorem itorque_traj_col k rb (Q QDD : 'M[F]_(n, k)) (i : 'I_k) :
  col i (itorque_traj rne rb Q QDD) = itorque rne rb (col i Q) (col i QDD).
Proof.
rewrite /itorque_traj itorqueE.
rewrite (foldl_set_col_enum (fun i => rne rb (col i Q) 0 (col i QDD) 0)).
by apply/colP => r; rewrite !mxE.
Qed.


End DynamicsIdentities.

(** ** Extended numbers, further *)

Section ExtFurther.

Variable F : archiRealFieldType.

Implicit Types (x y z : ext F) (s : seq (ext F)).

Lemma argmin_scan_bound (mp : ext F) (mi i : nat) s :
  (mi < i)%N -> (argmin_scan mp mi i s < i + size s)%N.
Proof.
elim: s mp mi i => [|x s IH] mp mi i mi_lt /=; first by rewrite addn0.
rewrite addnS -addSn; case: ifP => _; first by apply: ltn_addr; apply: ltnW.
by case: ifP => _; apply: IH => //; apply: ltnW.
Qed.

(** [np.argmin] returns an index of its argument. *)
Lemma argmin_lt s : (0 < size s)%N -> (argmin s < size s)%N.
Proof.
by case: s => [|x s] // _; rewrite /argmin /= -add1n; apply: argmin_scan_bound.
Qed.

(** The scan ends on the first index of the least element. *)
Lemma argmin_scan_first (L : seq (ext F)) (k i mi : nat) :
  all (fun x => ~~ is_nan x) L ->
  (i + k)%N = size L -> (mi < i)%N ->
  (forall j, (j < i)%N -> ege (nth NaN L j) (nth NaN L mi)) ->
  (forall j, (j < mi)%N -> ~~ ege (nth NaN L mi) (nth NaN L j)) ->
  let r := argmin_scan (nth NaN L mi) mi i (drop i L) in
  forall j, (j < r)%N -> ~~ ege (nth NaN L r) (nth NaN L j).
Proof.
move=> nn; elim: k i mi => [|k IH] i mi.
  by rewrite addn0 => -> mi_lt below first; rewrite drop_size.
rewrite addnS -addSn => sz mi_lt below first.
have i_lt : (i < size L)%N by rewrite -sz addSn ltnS leq_addr.
rewrite (drop_nth NaN i_lt) /=.
have nn_mp : ~~ is_nan (nth NaN L mi).
  by apply: (all_nthP _ nn); apply: ltn_trans i_lt.
rewrite (negbTE nn_mp); case: ifPn => [lt_x|/negPn ge_x].
  apply: IH => // j; rewrite ?ltnS.
    rewrite leq_eqVlt => /orP[/eqP->|ji].
      by apply: ege_refl; apply: (all_nthP _ nn).
    apply: ege_trans (below _ ji) _; apply: ege_total => //.
    by apply: (all_nthP _ nn).
  move=> ji; apply: contra lt_x => ge_j.
  exact: ege_trans ge_j (below _ ji).
apply: IH => //; first exact: ltnW.
by move=> j; rewrite ltnS leq_eqVlt => /orP[/eqP->|ji] //; apply: below.
Qed.

Lemma argmin_first s :
  all (fun x => ~~ is_nan x) s ->
  forall j, (j < argmin s)%N -> ~~ ege (nth NaN s (argmin s)) (nth NaN s j).
Proof.
case: s => [|x s'] // nn.
have := @argmin_scan_first (x :: s') (size s') 1 0 nn.
rewrite add1n /= drop0; apply=> // j; rewrite ltnS leqn0 => /eqP-> /=.
by apply: ege_refl; case/andP: nn.
Qed.

Lemma argmin_scan_const (a : F) (mi i k : nat) :
  argmin_scan (Fin a) mi i (nseq k (Fin a)) = mi.
Proof. by elim: k i => [|k IH] i //=; rewrite lexx /= IH. Qed.

Lemma paycap_factor_not_ninf (TAUM TAUm tauB : F) (tauP : ext F) :
  paycap_factor TAUM TAUm tauB tauP <> NInf.
Proof. by rewrite /paycap_factor; case: (if egt0 tauP then _ else _). Qed.

End ExtFurther.

(** ** [pay] and [paycap], further *)

Section PaycapFurther.

Variable F : archiRealFieldType.
Variable n : nat.
Variable rne :
  Robot F n -> 'cV[F]_n -> 'cV[F]_n -> 'cV[F]_n -> 'cV[F]_3 -> 'cV[F]_n.
Variables jacob0 jacobe : Robot F n -> 'cV[F]_n -> 'M[F]_(6, n).
Variable sqrtF : F -> F.

Implicit Types (rb : Robot F n) (w : 'cV[F]_6).
Implicit Types (tauR : 'M[F]_(n, 2)) (frame : bool).

Local Notation tauP := (paycap_tauP jacob0 jacobe sqrtF).
Local Notation WM := (paycap_WM rne jacob0 jacobe sqrtF).
Local Notation paycap := (paycap rne jacob0 jacobe sqrtF).
Local Notation pay := (pay jacob0 jacobe).
Local Notation pay_traj := (pay_traj jacob0 jacobe).

(** *** [pay] *)

(** On a finite wrench [pay] is the finite vector [-J.T @ W]. *)
Lemma pay_finite rb (W : 'cV[F]_6) (q : option 'cV[F]_n)
    (J : option 'M[F]_(6, n)) frame :
  pay rb (finite_mx W) q J frame
  = finite_mx
      (- (if J is Some J then J
          else pay_jacobian jacob0 jacobe rb
                 (if q is Some q then q else stored_q rb) frame)^T *m W).
Proof.
apply/colP => c; rewrite /pay !mxE; set J' := (if J is Some _ then _ else _).
rewrite (@big_eadd_fin _ _ _ (fun k => - J' k c * W k 0)) => [k|].
  by rewrite !mxE.
by congr Fin; apply: eq_bigr => k _; rewrite !mxE.
Qed.

(** [pay] on a trajectory computes each column as [pay] does on the
    columns of [W] and [q], or on the plane of the Jacobians supplied. *)
Theorem pay_traj_col k rb (W : 'M[F]_(6, k)) (q : 'M[F]_(n, k))
    (J : option ('I_k -> 'M[F]_(6, n))) frame (i : 'I_k) :
  finite_mx (col i (pay_traj rb W q J frame))
  = pay rb (finite_mx (col i W)) (Some (col i q))
        (if J is Some J then Some (J i) else None) frame.
Proof.
rewrite pay_finite /(pay_traj _ _ _ _ _).
set J' := (if J is Some _ then _ else _).
rewrite (foldl_set_col_enum (fun i => - (J' i)^T *m col i W)).
congr finite_mx; apply/colP => r; rewrite !mxE.
by rewrite /J'; case: (J).
Qed.

(** *** [paycap] *)

(** [paycap] raises for every robot whose number of joints is neither 6
    nor 1: the array of the [n] factors does not fit the column of
    [wmax]. *)
Theorem paycap_joint_count rb w tauR frame q :
  n != 6%N -> n != 1%N ->
  paycap rb w tauR frame q = Raise (ValueError msg_broadcast).
Proof.
move=> /negbTE n6 /negbTE n1.
by rewrite /paycap /assign_wmax size_WM n6 n1.
Qed.

Lemma paycap_returned rb w tauR frame q wmax joint :
  paycap rb w tauR frame q = Ok (wmax, joint) ->
  let q' := if q is Some q then q else stored_q rb in
  [/\ (0 < n)%N, joint = argmin (WM rb w tauR frame q')
    & forall i : 'I_6, exists c : 'I_n,
        wmax i 0 = nth NaN (WM rb w tauR frame q') c].
Proof.
rewrite /paycap /assign_wmax size_WM.
case: eqP => [n6|_].
  case=> <- <-; split=> //; first by rewrite n6.
  move=> i; have i_lt : (i < n)%N by rewrite n6.
  by exists (Ordinal i_lt); rewrite mxE.
case: eqP => // n1 [<- <-]; split=> //; first by rewrite n1.
have lt0 : (0 < n)%N by rewrite n1.
by move=> i; exists (Ordinal lt0); rewrite mxE.
Qed.

(** Whatever [paycap] returns, the joint index is an index of the robot
    and no component of [wmax] is [-inf]. *)
Theorem paycap_joint_valid rb w tauR frame q wmax joint :
  paycap rb w tauR frame q = Ok (wmax, joint) ->
  (joint < n)%N /\ forall i, wmax i 0 <> NInf.
Proof.
move=> /paycap_returned /= [n_gt0 -> wmaxE]; split.
  by rewrite -[X in (_ < X)%N](size_WM rne jacob0 jacobe sqrtF rb w tauR frame
       (if q is Some q then q else stored_q rb)) argmin_lt // size_WM.
move=> i; have [c ->] := wmaxE i.
by rewrite nth_WM; apply: paycap_factor_not_ninf.
Qed.

(** The factors of [paycap] hold no NaN when the wrench has a non-zero
    norm and no joint with zero unit-wrench torque sits exactly at its
    lower limit under gravity. *)
Lemma WM_no_nan rb w tauR frame (q : 'cV[F]_n) :
  norm sqrtF w != 0 ->
  (forall c : 'I_n, tauP rb w frame q c 0 = Fin 0 ->
                    tauR c 1 != gravload rne rb q None c 0) ->
  all (fun x => ~~ is_nan x) (WM rb w tauR frame q).
Proof.
move=> nz no_nan; apply/(all_nthP NaN) => i; rewrite size_WM => i_lt.
rewrite (nth_WM _ _ _ _ _ _ _ _ _ (Ordinal i_lt)).
have := no_nan (Ordinal i_lt); rewrite (tauP_fin _ _ _ _ _ _ nz).
rewrite paycap_factor_fin; set a := \sum_(k < 6) _.
have [->|//] := eqVneq a 0.
by move=> /(_ erefl); rewrite subr_eq0 => /negbTE->.
Qed.

(** The joint [paycap] returns is the first joint of least factor. *)
Theorem paycap_first_minimum rb w tauR frame (q : 'cV[F]_n) wmax joint :
  norm sqrtF w != 0 ->
  (forall c : 'I_n, tauP rb w frame q c 0 = Fin 0 ->
                    tauR c 1 != gravload rne rb q None c 0) ->
  paycap rb w tauR frame (Some q) = Ok (wmax, joint) ->
  (forall c : 'I_n,
      ege (nth NaN (WM rb w tauR frame q) c)
          (nth NaN (WM rb w tauR frame q) joint))
  /\ (forall c : 'I_n, (c < joint)%N ->
        ~~ ege (nth NaN (WM rb w tauR frame q) joint)
               (nth NaN (WM rb w tauR frame q) c)).
Proof.
move=> nz no_nan /paycap_returned /= [n_gt0 -> _].
have nn := WM_no_nan nz no_nan.
have [] := argmin_min nn; first by rewrite size_WM.
move=> _ least; split=> c; first by apply: least; rewrite size_WM.
exact: argmin_first.
Qed.

(** When the gravity torque of every joint lies strictly between its
    limits, every component of [wmax] is non-negative or [+inf]. *)
Theorem paycap_nonnegative rb w tauR frame (q : 'cV[F]_n) wmax joint :
  norm sqrtF w != 0 ->
  (forall c : 'I_n,
      tauR c 1 < gravload rne rb q None c 0 < tauR c 0) ->
  paycap rb w tauR frame (Some q) = Ok (wmax, joint) ->
  forall i, ege (wmax i 0) (Fin 0).
Proof.
move=> nz within /paycap_returned /= [_ _ wmaxE] i.
have [c ->] := wmaxE i; have /andP[lo hi] := within c.
rewrite nth_WM (tauP_fin _ _ _ _ _ _ nz) paycap_factor_fin.
set a := \sum_(k < 6) _; case: (ltrgt0P a) => [a0|a0|_] /=.
- by rewrite divr_ge0 ?subr_ge0 ?ltW.
- by rewrite -mulrNN -invrN divr_ge0 ?oppr_ge0 ?subr_le0 ?ltW.
- by rewrite subr_eq0 lt_eqF.
Qed.

(** A zero wrench is divided by its zero norm: every torque per unit
    wrench is NaN, no factor is computed, and [paycap] returns the zero
    factors and joint 0. *)
Theorem paycap_zero_wrench rb tauR frame q :
  sqrtF 0 = 0 -> (n == 6%N) || (n == 1%N) ->
  paycap rb 0 tauR frame q = Ok (const_mx (Fin 0), 0%N).
Proof.
move=> sqrt0 n61; set q' := if q is Some q then q else stored_q rb.
have n_gt0 : (0 < n)%N by case/orP: n61 => /eqP->.
have norm0 : norm sqrtF 0 = 0.
  by rewrite /norm big1 // => k _; rewrite mxE expr0n.
have tauP0 (c : 'I_n) : tauP rb 0 frame q' c 0 = NaN.
  rewrite /paycap_tauP mxE big_ord_recl.
  by rewrite /unit_wrench !mxE norm0 /= eqxx /=.
have WM0 : WM rb 0 tauR frame q' = nseq n (Fin 0).
  apply: (@eq_from_nth _ NaN); rewrite size_WM ?size_nseq // => i i_lt.
  by rewrite (nth_WM _ _ _ _ _ _ _ _ _ (Ordinal i_lt)) tauP0 nth_nseq i_lt.
rewrite /paycap -/q' WM0 /assign_wmax size_nseq.
have -> : argmin (nseq n (Fin 0 : ext F)) = 0%N.
  by case: (n) => [|m] //=; apply: argmin_scan_const.
have [n6|n6] := boolP (n == 6%N).
  congr (Ok (_, _)); apply/colP => i; rewrite !mxE nth_nseq.
  by rewrite (_ : (i < n)%N) // (eqP n6).
move: n61; rewrite (negbTE n6) /= => ->.
by congr (Ok (_, _)); apply/colP => i; rewrite !mxE nth_nseq n_gt0.
Qed.

End PaycapFurther.

(** ** Forward dynamics, further *)

Section FdynFurther.

Variable F : archiRealFieldType.
Variable n : nat.
Variable rne :
  Robot F n -> 'cV[F]_n -> 'cV[F]_n -> 'cV[F]_n -> 'cV[F]_3 -> 'cV[F]_n.
Variables targs_t sargs_t : Type.
Variable integrate_dict : string -> option (Solver F n sargs_t).

Implicit Types (rb : Robot F n) (x : state F n) (t T : F).
Implicit Types (torqfun : option (torque_law F n targs_t)) (targs : targs_t).
Implicit Types (sv : Solver F n sargs_t) (f : F -> state F n -> result (state F n)).
Implicit Types (fuel : nat).

Local Notation fdyn := (fdyn rne integrate_dict).
Local Notation fdyn_run := (fdyn_run rne integrate_dict).
Local Notation fdyn_samples := (fdyn_samples rne integrate_dict).

(** With a torque law that keeps its contract, and an invertible mass
    matrix, the derivative of the state [[q, qd]] is [[qd, qdd]] with
    [qdd = M^-1 (tau - bias)]. *)
Theorem _fdyn_state_space rb t x (tf : torque_law F n targs_t) targs tau :
  tf rb t (usubmx x) (dsubmx x) targs = Ok tau ->
  size tau = n -> all (@isreal F) tau ->
  mass_matrix rne rb (usubmx x) \in unitmx ->
  _fdyn rne rb t x (Some tf) targs
  = Ok (col_mx (dsubmx x)
          (invmx (mass_matrix rne rb (usubmx x))
           *m (real_vector n tau - tau_bias rne rb (usubmx x) (dsubmx x)))).
Proof.
move=> tf_tau sz re Mu.
by rewrite /_fdyn tf_tau /= sz eqxx re /= accel_vectorE.
Qed.

(** A solver name that [scipy.integrate] does not hold is a [KeyError],
    raised before the derivative function is ever evaluated. *)
Theorem fdyn_unknown_solver rb T q0 torqfun targs qd0 solver sargs dt fuel :
  integrate_dict solver = None ->
  fdyn_run rb T q0 torqfun targs qd0 solver sargs dt fuel
  = (Raises (KeyError solver), [::]).
Proof. by rewrite /fdyn_run /fdyn_samples => ->. Qed.

(** The three components of a trajectory that [fdyn] returns have the
    same number of samples, with or without [dt]. *)
Theorem fdyn_sample_counts rb T q0 torqfun targs qd0 solver sargs dt fuel tg :
  fdyn rb T q0 torqfun targs qd0 solver sargs dt fuel = Returns tg ->
  size (tg_q tg) = size (tg_t tg) /\ size (tg_qd tg) = size (tg_t tg).
Proof.
rewrite fdyn_of_samples.
case samples: (fdyn_samples _ _ _ _ _ _ _ _ _).1 => [[ta xa]|e|] //.
have [ts [xs [taE xaE sz]]] := fdyn_samples_returns samples.
case: dt => [dt|] /=; last first.
  by case=> <- /=; rewrite !size_map taE xaE /= sz.
case: (interp1d ta xa) => [interp|e] //=.
case: (arange T dt) => [tnew|e] //=.
rewrite /interp_call; case: ifP => // _; case: ifP => // _ /= [<-] /=.
by rewrite !size_map.
Qed.

(** With the output interval [dt = 0], [fdyn] returns no trajectory,
    whatever the integrator does. *)
Theorem fdyn_zero_interval rb T q0 torqfun targs qd0 solver sargs fuel :
  if fdyn rb T q0 torqfun targs qd0 solver sargs (Some 0) fuel is Returns _
  then False else True.
Proof.
rewrite fdyn_of_samples.
case: (fdyn_samples _ _ _ _ _ _ _ _ _).1 => [[ta xa]|e|] //=.
by case: (interp1d ta xa) => [interp|e] //=; rewrite /arange eqxx.
Qed.

(** The loop of [fdyn] on an integrator that finishes after [k] steps. *)
Lemma fdyn_loop_steps sv f (stage : nat -> solver_obj sv) k fuel tl xl :
  (forall i, (i < k)%N ->
     status (stage i) = running
     /\ (run_prog f (solver_step (stage i))).1 = Ok (stage i.+1)) ->
  status (stage k) = finished -> (k <= fuel)%N ->
  (fdyn_loop f fuel (stage 0%N) tl xl).1
  = Returns (tl ++ mkseq (fun i => solver_t (stage i.+1)) k,
             xl ++ mkseq (fun i => solver_y (stage i.+1)) k).
Proof.
elim: k stage fuel tl xl => [|k IH] stage fuel tl xl steps fin.
  by case: fuel => [|fuel] _; rewrite /= fin !cats0.
case: fuel => [|fuel] //; rewrite ltnS => k_le.
have [run0 step0] := steps 0%N (ltn0Sn _).
have st1 : status (stage 1%N) <> failed.
  case: k {IH k_le} steps fin => [|k] steps fin; first by rewrite fin.
  by have [st _] := steps 1%N isT; rewrite st.
have := IH (fun i => stage i.+1) fuel (rcons tl (solver_t (stage 1%N)))
           (rcons xl (solver_y (stage 1%N))).
move=> /(_ (fun i ik => steps i.+1 ik) fin k_le) IH'.
rewrite [fdyn_loop _ _ _ _ _]/= run0.
case: (run_prog f (solver_step (stage 0%N))) step0 => [r log] /= ->.
case: (fdyn_loop _ _ _ _ _) IH' => [o log'] /= ->.
rewrite !cat_rcons /mkseq -[iota 0 k.+1]/(0%N :: iota 1 k).
rewrite (iotaDl 1 0 k) /= -!map_comp.
by case: (status (stage 1%N)) st1.
Qed.

(** When the integrator takes [k] steps and then reports [finished],
    [fdyn] without [dt] returns, given fuel for [k] steps, the initial
    sample followed by the time and state of the integrator after each
    step. *)
Theorem fdyn_steps rb T q0 torqfun targs qd0 solver sargs sv
    (stage : nat -> solver_obj sv) k fuel :
  let f := fun t y => _fdyn rne rb t y torqfun targs in
  let qd0' := if qd0 is Some qd0 then qd0 else 0 in
  integrate_dict solver = Some sv ->
  (run_prog f (solver_new sv 0 (col_mx q0 qd0') T sargs)).1 = Ok (stage 0%N) ->
  (forall i, (i < k)%N ->
     status (stage i) = running
     /\ (run_prog f (solver_step (stage i))).1 = Ok (stage i.+1)) ->
  status (stage k) = finished -> (k <= fuel)%N ->
  fdyn rb T q0 torqfun targs qd0 solver sargs None fuel
  = Returns
      (mk_fdyn (0 :: mkseq (fun i => solver_t (stage i.+1)) k)
               (q0 :: mkseq (fun i => usubmx (solver_y (stage i.+1))) k)
               (qd0' :: mkseq (fun i => dsubmx (solver_y (stage i.+1))) k)).
Proof.
move=> f qd0' dict new steps fin k_le.
rewrite fdyn_of_samples /fdyn_samples dict -/f -/qd0'.
case: (run_prog f _) new => [r log0] /= ->.
have := @fdyn_loop_steps sv f stage k fuel [:: 0] [:: col_mx q0 qd0']
          steps fin k_le.
case: (fdyn_loop _ _ _ _ _) => [o log1] /= -> /=.
by rewrite col_mxKu col_mxKd /mkseq -!map_comp.
Qed.

End FdynFurther.

(** ** The variant factory and [payload] *)

Section VariantFurther.

Variable F : archiRealFieldType.
Variable n : nat.
Variable rng_t : Type.
Variable random : rng_t -> F * rng_t.

Implicit Types (s : store F n rng_t) (ls : seq nat).

(** *** [perterb] *)

Lemma perterbE s self p :
  valid_robot s self ->
  let r := get_robot s self in
  perterb random self p s
  = (size (robot_objs s),
     foldl (perterb_link random (size (robot_objs s)) p)
       (mkStore (link_objs s ++ [seq get_link s a | a <- obj_links r])
          (rcons (robot_objs s)
             (mkRobotObj ("P/" ++ obj_name r)
                (iota (size (link_objs s)) (size (obj_links r)))
                (obj_gravity r) (obj_q r)))
          (rng s))
       (iota 0 (size (obj_links r)))).
Proof.
move=> valid; have /andP[self_lt valid_links] := valid.
have get_self r' : nth (no_robot F n) (rcons (robot_objs s) r') self
                   = get_robot s self.
  by rewrite nth_rcons self_lt.
rewrite /perterb _copyE // /set_robot /get_robot /=.
by rewrite !nth_rcons_size /= !get_self set_nth_rcons get_self.
Qed.

Lemma scale_bounds (p u : F) :
  0 <= p -> 0 <= u <= 1 -> 1 - p <= (2%:R * u - 1) * p + 1 <= 1 + p.
Proof.
move=> p0 /andP[u0 u1].
have c1 : 2%:R * u - 1 <= 1.
  by rewrite lerBlDr -[1 + 1]/(2%:R) -{2}[2%:R]mulr1 ler_wpM2l ?ler0n.
have c0 : -1 <= 2%:R * u - 1.
  by rewrite lerBrDr addNr mulr_ge0 ?ler0n.
apply/andP; split.
  by rewrite [1 - p]addrC lerD2r -mulN1r ler_wpM2r.
by rewrite [1 + p]addrC lerD2r -{2}[p]mul1r ler_wpM2r.
Qed.

(** One iteration of the loop scales the mass and the inertia of the
    link it writes. *)
Lemma perterb_link_at r2 p s i :
  (forall g, 0 <= (random g).1 <= 1) -> 0 <= p ->
  let a := nth 0%N (obj_links (get_robot s r2)) i in
  scaled_link p (get_link s a) (get_link (perterb_link random r2 p s i) a).
Proof.
move=> rnd p0 /=; rewrite /perterb_link.
have := rnd (rng s); case: (random (rng s)) => [u g] /= u01.
have := rnd g; case: (random g) => [u' g'] /= u01'.
exists ((2%:R * u - 1) * p + 1), ((2%:R * u' - 1) * p + 1).
split; try exact: scale_bounds.
by rewrite /get_link /get_robot /= !nth_set_nth /= !eqxx.
Qed.

Lemma perterb_loop_other r2 p (idx : seq nat) s b :
  (forall i, i \in idx -> b != nth 0%N (obj_links (get_robot s r2)) i) ->
  let s' := foldl (perterb_link random r2 p) s idx in
  robot_objs s' = robot_objs s /\ get_link s' b = get_link s b.
Proof.
elim: idx s => [|i idx IH] s //= other.
have [robots links] := perterb_link_frame random r2 p s i.
have [|-> ->] := IH (perterb_link random r2 p s i).
  by move=> j j_in; rewrite /get_robot robots; apply: other; rewrite in_cons j_in orbT.
by split=> //; apply: links; apply: other; apply: mem_head.
Qed.

Lemma perterb_loop_at r2 p ls k i0 s :
  (forall g, 0 <= (random g).1 <= 1) -> 0 <= p ->
  uniq ls -> obj_links (get_robot s r2) = ls -> (i0 + k <= size ls)%N ->
  let s' := foldl (perterb_link random r2 p) s (iota i0 k) in
  forall j, (i0 <= j < i0 + k)%N ->
    scaled_link p (get_link s (nth 0%N ls j)) (get_link s' (nth 0%N ls j)).
Proof.
move=> rnd p0 uniq_ls; elim: k i0 s => [|k IH] i0 s linksE le_sz /= j.
  by rewrite addn0; case: ltngtP.
rewrite addnS -addSn in le_sz *.
have [robots links] := perterb_link_frame random r2 p s i0.
have linksE' : obj_links (get_robot (perterb_link random r2 p s i0) r2) = ls.
  by rewrite /get_robot robots.
have i0_lt : (i0 < size ls)%N by apply: leq_trans le_sz; rewrite ltnS leq_addr.
rewrite leq_eqVlt => /andP[/orP[/eqP<-|i0j] j_lt]; last first.
  have j_sz : (j < size ls)%N by apply: leq_trans le_sz.
  rewrite -(links (nth 0%N ls j)).
    by rewrite linksE nth_uniq // neq_ltn i0j orbT.
  by apply: (IH i0.+1 _ linksE' le_sz); rewrite i0j j_lt.
have [|_ ->] := @perterb_loop_other r2 p (iota i0.+1 k)
                  (perterb_link random r2 p s i0) (nth 0%N ls i0).
  move=> i; rewrite mem_iota linksE' => /andP[i0i i_lt].
  rewrite nth_uniq ?neq_ltn ?i0i //.
  by apply: leq_trans le_sz.
by have := perterb_link_at r2 s i0 rnd p0; rewrite /= linksE.
Qed.

Lemma perterb_scaled s self p :
  valid_robot s self ->
  (forall g, 0 <= (random g).1 <= 1) -> 0 <= p ->
  let res := perterb random self p s in
  let rv := robot_value s self in
  let rv' := robot_value res.2 res.1 in
  [/\ name rv' = ("P/" ++ name rv)%string,
      gravity rv' = gravity rv,
      stored_q rv' = stored_q rv,
      size (links rv') = size (links rv)
    & forall i, (i < size (links rv))%N ->
        scaled_link p (nth (no_link F) (links rv) i)
                      (nth (no_link F) (links rv') i)].
Proof.
move=> valid rnd p0; have [r2E robots2 links2] := perterb_frame random p valid.
have robj : get_robot (perterb random self p s).2 (size (robot_objs s))
            = mkRobotObj ("P/" ++ obj_name (get_robot s self))
                (iota (size (link_objs s)) (size (obj_links (get_robot s self))))
                (obj_gravity (get_robot s self)) (obj_q (get_robot s self)).
  by rewrite /get_robot robots2 nth_rcons_size.
rewrite /= /robot_value /= r2E robj /=.
rewrite !size_map size_iota; split=> // i i_lt.
rewrite (nth_map 0%N) // (nth_map 0%N) ?size_iota // nth_iota //.
rewrite perterbE //=.
set L := link_objs s; set R := robot_objs s; set r := get_robot s self.
set sN := mkStore _ _ _.
have := @perterb_loop_at (size R) p (iota (size L) (size (obj_links r)))
          (size (obj_links r)) 0 sN rnd p0 (iota_uniq _ _).
rewrite /get_robot /= nth_rcons_size /= size_iota add0n.
move=> /(_ erefl (leqnn _) i i_lt); rewrite nth_iota //.
rewrite [get_link sN _]/get_link /= nth_cat ltnNge leq_addr /= addKn.
by rewrite (nth_map 0%N).
Qed.

(** [perterb] returns a robot named 'P/' + name, with the gravity, the
    stored configuration and the number of links of the source, whose
    links are those of the source with the mass and the inertia each
    scaled by a factor between [1 - p] and [1 + p], when the random source
    draws from the unit interval and [p] is not negative. *)
Theorem perterb_scaling s self p :
  valid_robot s self ->
  (forall g, 0 <= (random g).1 <= 1) -> 0 <= p ->
  let res := perterb random self p s in
  let rv := robot_value s self in
  let rv' := robot_value res.2 res.1 in
  [/\ name rv' = ("P/" ++ name rv)%string,
      gravity rv' = gravity rv,
      stored_q rv' = stored_q rv,
      size (links rv') = size (links rv)
    & forall i, (i < size (links rv))%N ->
        scaled_link p (nth (no_link F) (links rv) i)
                      (nth (no_link F) (links rv') i)].
Proof. exact: perterb_scaled. Qed.

(** With [p = 0] the robot that [perterb] returns has the parameters of
    the source, link by link; only the name differs. *)
Theorem perterb_zero s self :
  valid_robot s self ->
  (forall g, 0 <= (random g).1 <= 1) ->
  let res := perterb random self 0 s in
  let rv := robot_value s self in
  robot_value res.2 res.1
  = mkRobot ("P/" ++ name rv) (links rv) (gravity rv) (stored_q rv).
Proof.
move=> valid rnd /=.
have [] := perterb_scaled valid rnd (lexx 0).
move: (robot_value _ (perterb random self 0 s).1) => [nm ls g q] /=.
move=> -> -> -> sz scaled; congr mkRobot.
apply: (@eq_from_nth _ (no_link F)) => // i; rewrite sz => /scaled.
case=> s1 [s2 [b1 b2 ->]]; move: b1 b2; rewrite subr0 addr0 -!eq_le.
move=> /eqP<- /eqP<-; rewrite mulr1 scale1r.
by case: (nth _ _ _).
Qed.

End VariantFurther.

(** *** [payload] *)

Section PayloadTheory.

Variable F : archiRealFieldType.
Variable n : nat.
Variable rng_t : Type.

Implicit Types (s : store F n rng_t) (ls : seq nat) (m : F).
Implicit Types (p : option 'cV[F]_3).

Lemma payloadE s self m p ls a :
  obj_links (get_robot s self) = rcons ls a ->
  payload self m p s = Some (set_link s a (loaded_link m p (get_link s a))).
Proof.
move=> linksE; rewrite /payload linksE size_rcons nth_rcons_size.
rewrite /set_link /get_link /= nth_set_nth /= eqxx /=.
by rewrite set_set_nth eqxx.
Qed.

Lemma payload_no_links s self m p :
  obj_links (get_robot s self) = [::] -> payload self m p s = None.
Proof. by rewrite /payload => ->. Qed.

(** [payload] fails on a robot without links, an [IndexError]; otherwise
    it writes the mass and the centre of mass into the last link object
    of the robot, in place, and leaves every robot object and every other
    link object as it was. *)
Theorem payload_last_link s self m p :
  match payload self m p s with
  | None => obj_links (get_robot s self) = [::]
  | Some s' =>
      exists ls a,
        [/\ obj_links (get_robot s self) = rcons ls a,
            robot_objs s' = robot_objs s,
            get_link s' a = loaded_link m p (get_link s a)
          & forall b, b != a -> get_link s' b = get_link s b]
  end.
Proof.
case linksE: (obj_links (get_robot s self)) / lastP => [|ls a].
  by rewrite payload_no_links.
rewrite (payloadE m p linksE); exists ls, a; split=> //.
  by rewrite /get_link /= nth_set_nth /= eqxx.
by move=> b ba; rewrite /get_link /= nth_set_nth /= (negbTE ba).
Qed.

(** [payload] overwrites: a second call leaves the store that it would
    have left without the first; the mass and the centre of mass that
    the last link had before are not kept. *)
Theorem payload_overwrites s self (m1 m2 : F) (p1 p2 : option 'cV[F]_3) :
  obind (payload self m2 p2) (payload self m1 p1 s) = payload self m2 p2 s.
Proof.
case linksE: (obj_links (get_robot s self)) / lastP => [|ls a].
  by rewrite !payload_no_links.
rewrite (payloadE m1 p1 linksE) (payloadE m2 p2 linksE) /=.
rewrite (@payloadE _ self m2 p2 ls a) //.
rewrite /set_link /get_link /= nth_set_nth /= eqxx /=.
by rewrite set_set_nth eqxx.
Qed.

End PayloadTheory.

(** ** [jointdynamics] and [cinertia] *)

Section ActuatorTheory.

Variable F : archiRealFieldType.
Variable n : nat.
Variable rne :
  Robot F n -> 'cV[F]_n -> 'cV[F]_n -> 'cV[F]_n -> 'cV[F]_3 -> 'cV[F]_n.
Variable jacob0 : Robot F n -> 'cV[F]_n -> 'M[F]_(6, n).
Variable pinv : 'M[F]_(6, n) -> 'M[F]_(n, 6).

Implicit Types (rb : Robot F n) (q qd : 'cV[F]_n).

Local Notation jointdynamics := (jointdynamics rne).
Local Notation cinertia := (cinertia rne jacob0 pinv).

(** *** [jointdynamics] *)

Lemma foldl_rcons_ok (T E : Type) (g : T -> result E) (h : T -> E)
    (xs : seq T) (acc : seq E) :
  (forall x, g x = Ok (h x)) ->
  foldl (fun acc x => tf <~ acc ;; e <~ g x ;; Ok (rcons tf e)) (Ok acc) xs
  = Ok (acc ++ [seq h x | x <- xs]).
Proof.
move=> gh; elim: xs acc => [|x xs IH] acc /=; first by rewrite cats0.
by rewrite gh /= IH cat_rcons.
Qed.

Lemma foldl_rcons_raise (T E : Type) (g : T -> result E) (xs : seq T) e :
  foldl (fun acc x => tf <~ acc ;; e <~ g x ;; Ok (rcons tf e)) (Raise e) xs
  = Raise e.
Proof. by elim: xs. Qed.

Lemma foldl_rcons_first_raise (T E : Type) (g : T -> result E) (x : T)
    (xs : seq T) e :
  g x = Raise e ->
  foldl (fun acc x => tf <~ acc ;; e <~ g x ;; Ok (rcons tf e)) (Ok [::])
        (x :: xs)
  = Raise e.
Proof. by move=> gx; rewrite /= gx /=; apply: foldl_rcons_raise. Qed.

Lemma zip_enum_nth (T : Type) (d : T) (ls : seq T) :
  size ls = n ->
  zip (enum 'I_n) ls = [seq (j, nth d ls j) | j : 'I_n <- enum 'I_n].
Proof.
move=> sz; rewrite -[in LHS](mkseq_nth d ls) sz /mkseq -val_enum_ord.
by rewrite -map_comp -[X in zip X _]map_id zip_map.
Qed.

Lemma probe_diagonal rb q (j : 'I_n) :
  rne rb q 0 (set_elem 0 j 1) 0 j 0 = inertia rne rb q j j.
Proof. by rewrite inertiaE mxE set_elem_delta. Qed.

Lemma truth_value_ambiguous (a : seq bool) :
  (1 < size a)%N -> truth_value a = Raise (ValueError msg_ambiguous).
Proof. by case: a => [|x [|y a]]. Qed.

(** Without [qd], and with non-zero gear ratios, [jointdynamics] returns
    for each joint [j] the pair of the motor inertia plus the diagonal
    element [j] of [inertia(q)] divided by the square of the gear ratio,
    and of the viscous friction of the link. *)
Theorem jointdynamics_inertia rb q :
  size (links rb) = n ->
  (forall j : 'I_n, link_G (nth (no_link F) (links rb) j) != 0) ->
  jointdynamics rb q None
  = Ok [seq (let link := nth (no_link F) (links rb) j in
             (Fin (link_Jm link + inertia rne rb q j j / link_G link ^+ 2),
              link_B link))
       | j : 'I_n <- enum 'I_n].
Proof.
move=> sz G0; rewrite /jointdynamics.
rewrite (zip_enum_nth (no_link F) sz).
rewrite (@foldl_rcons_ok _ _ _
           (fun jl : 'I_n * Link F =>
              (eadd (Fin (link_Jm jl.2))
                    (ediv (Fin (rne rb q 0 (set_elem 0 jl.1 1) 0 jl.1 0))
                          (Fin (`|link_G jl.2| ^+ 2))),
               link_B jl.2))) //=.
rewrite -map_comp; congr Ok; apply: eq_map => j /=.
rewrite probe_diagonal real_normK ?num_real //.
by rewrite expf_eq0 /= (negbTE (G0 j)).
Qed.

(** With [qd], [jointdynamics] raises on every robot of more than one
    joint: the test [if qd > 0] has no truth value. *)
Theorem jointdynamics_velocity_ambiguous rb q qd :
  (1 < n)%N -> (0 < size (links rb))%N ->
  jointdynamics rb q (Some qd) = Raise (ValueError msg_ambiguous).
Proof.
move=> n1 links0; rewrite /jointdynamics.
have: (0 < size (enum 'I_n))%N by rewrite size_enum_ord ltnW.
case: (enum 'I_n) => [|j s] // _; case: (links rb) links0 => [|l ls] // _.
apply: (@foldl_rcons_first_raise _ _
          (fun jl => jointdynamics_link rne rb q (Some qd) jl.1 jl.2) (j, l)).
have sz : (1 < size [seq (0 < qd i 0)%R | i <- enum 'I_n])%N.
  by rewrite size_map size_enum_ord.
by rewrite /jointdynamics_link (truth_value_ambiguous sz).
Qed.

(** *** [cinertia] *)

(** [cinertia] raises on every robot whose number of joints is not 6. *)
Theorem cinertia_joint_count rb (q : option 'cV[F]_n) :
  n != 6%N -> cinertia rb q = Raise (ValueError msg_broadcast_plane).
Proof. by rewrite /cinertia => /negbTE->. Qed.

(** On a robot of six joints, where the pseudo-inverse is a left inverse
    of the Jacobian, the Cartesian inertia [X] that [cinertia] returns
    gives the joint-space inertia back as [J.T @ X @ J]. *)
Theorem cinertia_congruence rb q :
  n == 6%N ->
  pinv (jacob0 rb q) *m jacob0 rb q = 1%:M ->
  exists2 Mt, cinertia rb (Some q) = Ok Mt
    & (jacob0 rb q)^T *m Mt *m jacob0 rb q = inertia rne rb q.
Proof.
move=> n6 left_inv; rewrite /cinertia n6.
eexists; first by [].
rewrite !mulmxA -trmx_mul left_inv trmx1 mul1mx.
by rewrite -mulmxA left_inv mulmx1.
Qed.

End ActuatorTheory.

(** A robot of one joint: [jointdynamics] with [qd] adds to the viscous
    friction the Coulomb friction linearised at the velocity, [Tc[0] / qd]
    for a positive velocity and [Tc[1] / qd] for a negative one, and
    nothing at rest. *)
Theorem jointdynamics_single_joint (F : archiRealFieldType)
    (rne : Robot F 1 -> 'cV[F]_1 -> 'cV[F]_1 -> 'cV[F]_1 -> 'cV[F]_3 ->
           'cV[F]_1)
    (rb : Robot F 1) (q qd : 'cV[F]_1) (link : Link F) :
  links rb = [:: link] ->
  jointdynamics rne rb q (Some qd)
  = Ok [:: (eadd (Fin (link_Jm link))
                 (ediv (Fin (inertia rne rb q 0 0))
                       (Fin (`|link_G link| ^+ 2))),
            link_B link
            + (if 0 < qd 0 0 then (link_Tc link).1 / qd 0 0
               else if qd 0 0 < 0 then (link_Tc link).2 / qd 0 0
               else 0))].
Proof.
move=> linksE.
have enum1 : enum 'I_1 = [:: ord0].
  by apply: (inj_map val_inj); rewrite val_enum_ord.
rewrite /jointdynamics linksE enum1 /= /jointdynamics_link enum1 /=.
rewrite (probe_diagonal rne rb q ord0).
by case: ifP => _ //=; case: ifP => _ //=; rewrite addr0.
Qed.

(** ** Evaluations on the instances, further *)

Section FurtherInstances.

(** *** The coupled oracle *)

Lemma mass_matrix_coupled n (rb : Robot rat n) (q : 'cV[rat]_n) :
  mass_matrix (@coupled_rne n) rb q = 1%:M.
Proof.
apply/matrixP => i j; rewrite /coupled_rne !mxE.
by rewrite big1 ?mulr0 ?addr0 ?andbT // => k _; rewrite mxE.
Qed.

Lemma coupled_affine n (rb : Robot rat n) (q qd : 'cV[rat]_n) :
  affine_in_acceleration (@coupled_rne n) rb q qd.
Proof.
move=> qdd.
by rewrite mass_matrix_coupled mul1mx /tau_bias /coupled_rne add0r.
Qed.

Lemma coupled_quadratic n (r1 : Robot rat n) (q : 'cV[rat]_n) :
  quadratic_velocity_torque (@coupled_rne n) r1 q (@coupled_coefficients n).
Proof.
move=> qd r; rewrite /coupled_rne !mxE add0r.
rewrite [RHS](bigD1 r) //= [X in _ = _ + X]big1 ?addr0 => [i ir|].
  rewrite big1 // => j _.
  by rewrite /coupled_coefficients eq_sym (negbTE ir) !mul0r.
rewrite mulrC mulr_sumr; apply: eq_bigr => j _.
by rewrite /coupled_coefficients eqxx mul1r.
Qed.

(** The coupled oracle on two joints: the acceleration [3] is recovered. *)
Lemma accel_inverts_rne_witness :
  accel (@coupled_rne 2) (demo_robot 2) 0 (const_mx 1)
        (coupled_rne (demo_robot 2) 0 (const_mx 1) (const_mx 3)
                     (gravity (demo_robot 2)))
  = Ok (const_mx 3).
Proof.
apply: accel_inverts_rne; last exact: coupled_affine.
by rewrite mass_matrix_coupled unitmx1.
Defined.




(** The coupled oracle on two joints at unit velocities. *)
Lemma coriolis_velocity_torque_witness :
  coriolis (@coupled_rne 2) (demo_robot 2) 0 (const_mx 1) *m const_mx 1
  = coupled_rne (nofriction (demo_robot 2) true true) 0 (const_mx 1) 0 0.
Proof.
apply: (@coriolis_velocity_torque rat 2 (@coupled_rne 2) (demo_robot 2) 0
          (const_mx 1) (@coupled_coefficients 2)).
exact: coupled_quadratic.
Defined.

(** *** [paycap] *)

(** A robot of two joints. *)
Lemma paycap_joint_count_witness :
  paycap (@unit_rne 2) (fun _ _ => 0) (fun _ _ => 0) rat_sqrt (demo_robot 2)
         force_x (demo_tauR 2) true None
  = Raise (ValueError msg_broadcast).
Proof. exact: paycap_joint_count. Defined.

Lemma paycap_ramp_value :
  paycap (@unit_rne 6) (fun _ _ => ramp_jacobian) (fun _ _ => ramp_jacobian)
         rat_sqrt (demo_robot 6) force_x (demo_tauR 6) true (Some 0)
  = Ok (\col_c Fin (12%:R / (c.+1)%:R), 5%N).
Proof.
rewrite /paycap [paycap_WM _ _ _ _ _ _ _ _ _]WM_ramp.
by rewrite assign_wmax6 argmin_ramp.
Qed.

Lemma ramp_no_nan (c : 'I_6) :
  paycap_tauP (fun _ _ => ramp_jacobian) (fun _ _ => ramp_jacobian)
              rat_sqrt (demo_robot 6) force_x true 0 c 0 = Fin 0 ->
  demo_tauR 6 c 1 != gravload (@unit_rne 6) (demo_robot 6) 0 None c 0.
Proof.
by rewrite gravload_unit demo_tauR_min [(0 : 'cV_6) _ _]mxE oppr_eq0 pnatr_eq0.
Qed.

(** The ramp arm: joint 5 and six finite factors. *)
Lemma paycap_joint_valid_witness :
  (5 < 6)%N
  /\ forall i : 'I_6,
       (\col_c Fin (12%:R / (c.+1)%:R) : 'cV[ext rat]_6) i 0 <> NInf.
Proof. exact: (paycap_joint_valid paycap_ramp_value). Defined.

(** The ramp arm: joint 5 has the least factor, and is the first to have it. *)
Lemma paycap_first_minimum_witness :
  let WM := paycap_WM (@unit_rne 6) (fun _ _ => ramp_jacobian)
              (fun _ _ => ramp_jacobian) rat_sqrt (demo_robot 6) force_x
              (demo_tauR 6) true 0 in
  (forall c : 'I_6, ege (nth NaN WM c) (nth NaN WM 5))
  /\ (forall c : 'I_6, (c < 5)%N -> ~~ ege (nth NaN WM 5) (nth NaN WM c)).
Proof.
apply: (paycap_first_minimum _ ramp_no_nan paycap_ramp_value).
by rewrite norm_force_x oner_neq0.
Defined.

Lemma ramp_within_limits (c : 'I_6) :
  demo_tauR 6 c 1 < gravload (@unit_rne 6) (demo_robot 6) 0 None c 0
                  < demo_tauR 6 c 0.
Proof.
rewrite gravload_unit demo_tauR_min demo_tauR_max.
by rewrite [(0 : 'cV_6) _ _]mxE oppr_lt0 ltr0n.
Qed.

(** The ramp arm, whose gravity torque 0 lies between the limits -12 and 12. *)
Lemma paycap_nonnegative_witness :
  ege ((\col_c Fin (12%:R / (c.+1)%:R) : 'cV[ext rat]_6) ord_max 0) (Fin 0).
Proof.
apply: (paycap_nonnegative _ ramp_within_limits paycap_ramp_value).
by rewrite norm_force_x oner_neq0.
Defined.

(** The ramp arm under the zero wrench. *)
Lemma paycap_zero_wrench_witness :
  paycap (@unit_rne 6) (fun _ _ => ramp_jacobian) (fun _ _ => ramp_jacobian)
         rat_sqrt (demo_robot 6) 0 (demo_tauR 6) true (Some 0)
  = Ok (const_mx (Fin 0), 0%N).
Proof. by apply: paycap_zero_wrench. Defined.

(** *** [fdyn] *)

Lemma ones_law_real n : all (@isreal rat) (nseq n (1, 0)).
Proof. by rewrite all_nseq /isreal eqxx orbT. Qed.

(** The unit oracle on two joints under the torque law of ones. *)
Lemma _fdyn_state_space_witness :
  _fdyn (@unit_rne 2) (demo_robot 2) 0 0 (Some (@ones_law 2)) tt
  = Ok (col_mx (dsubmx (0 : state rat 2))
          (invmx (mass_matrix (@unit_rne 2) (demo_robot 2)
                    (usubmx (0 : state rat 2)))
           *m (real_vector 2 (nseq 2 (1, 0))
               - tau_bias (@unit_rne 2) (demo_robot 2)
                   (usubmx (0 : state rat 2)) (dsubmx (0 : state rat 2))))).
Proof.
apply: (@_fdyn_state_space rat 2 (@unit_rne 2) unit (demo_robot 2) 0 0
          (@ones_law 2) tt (nseq 2 (1, 0))).
- by [].
- by rewrite size_nseq.
- exact: ones_law_real.
- by rewrite mass_matrix_unit unitmx1.
Defined.

(** The name RK45, which the demonstration namespace does not hold. *)
Lemma fdyn_unknown_solver_witness :
  fdyn_run (@unit_rne 1) (@demo_dict 1) (demo_robot 1) 1 (const_mx 1)
           None tt None "RK45" tt None 1
  = (Raises (KeyError "RK45"), [::]).
Proof. exact: fdyn_unknown_solver. Defined.

(** The one-step Euler run: two samples in each component. *)
Lemma fdyn_sample_counts_witness :
  size (tg_q (demo_raw (const_mx 1 : 'cV[rat]_1) 1))
  = size (tg_t (demo_raw (const_mx 1 : 'cV[rat]_1) 1))
  /\ size (tg_qd (demo_raw (const_mx 1 : 'cV[rat]_1) 1))
     = size (tg_t (demo_raw (const_mx 1 : 'cV[rat]_1) 1)).
Proof.
exact: (fdyn_sample_counts (euler_raw (const_mx 1 : 'cV[rat]_1) 1 0)).
Defined.

Lemma euler_stage_step n (q0 : 'cV[rat]_n) (T : rat) :
  (run_prog (fun t y => _fdyn (@unit_rne n) (demo_robot n) t y None tt)
            (solver_step (euler_stage q0 T 0))).1
  = Ok (euler_stage q0 T 1).
Proof. by rewrite /= _fdyn_unit. Qed.

(** The Euler integrator, which finishes after one step. *)
Lemma fdyn_steps_witness :
  let stage := @euler_stage 1 (const_mx 1) 1 in
  fdyn (@unit_rne 1) (@demo_dict 1) (demo_robot 1) 1 (const_mx 1)
       None tt None "Euler" tt None 1
  = Returns
      (mk_fdyn
         (0 :: mkseq (fun i => @solver_t _ _ _ (euler_solver 1) (stage i.+1)) 1)
         (const_mx 1
          :: mkseq (fun i => usubmx (@solver_y _ _ _ (euler_solver 1)
                                       (stage i.+1))) 1)
         (0 :: mkseq (fun i => dsubmx (@solver_y _ _ _ (euler_solver 1)
                                         (stage i.+1))) 1)).
Proof.
apply: (@fdyn_steps rat 1 (@unit_rne 1) unit unit (@demo_dict 1)
          (demo_robot 1) 1 (const_mx 1) None tt None "Euler" tt
          (euler_solver 1) (euler_stage (const_mx 1) 1) 1 1) => //.
by case=> // _; split=> //; apply: euler_stage_step.
Defined.

(** *** The variant factory and [payload] *)

Lemma demo_random_unit (g : nat) : 0 <= (demo_random g).1 <= 1.
Proof.
rewrite /demo_random /=.
by rewrite ler_pdivrMr ?ltr0n // mul1r ler1n.
Qed.

Lemma tenth_ge0 : 0 <= 1 / 10%:R :> rat.
Proof. by rewrite divr_ge0 ?ler0n. Qed.

(** The demonstration store, a random source that draws 1/2, and p = 1/10. *)
Lemma perterb_scaling_witness :
  let res := perterb demo_random 0 (1 / 10%:R) (demo_store 1) in
  let rv := robot_value (demo_store 1) 0 in
  let rv' := robot_value res.2 res.1 in
  [/\ name rv' = ("P/" ++ name rv)%string,
      gravity rv' = gravity rv,
      stored_q rv' = stored_q rv,
      size (links rv') = size (links rv)
    & forall i, (i < size (links rv))%N ->
        scaled_link (1 / 10%:R) (nth (no_link rat) (links rv) i)
                    (nth (no_link rat) (links rv') i)].
Proof.
apply: perterb_scaling; first by [].
  exact: demo_random_unit.
exact: tenth_ge0.
Defined.

(** The demonstration store and a random source that draws 1/2. *)
Lemma perterb_zero_witness :
  let res := perterb demo_random 0 0 (demo_store 1) in
  let rv := robot_value (demo_store 1) 0 in
  robot_value res.2 res.1
  = mkRobot ("P/" ++ name rv) (links rv) (gravity rv) (stored_q rv).
Proof.
apply: perterb_zero; first by [].
exact: demo_random_unit.
Defined.

(** *** [jointdynamics] and [cinertia] *)

Lemma demo_links_gear n (j : 'I_n) :
  link_G (nth (no_link rat) (links (demo_robot n)) j) != 0.
Proof. by rewrite /= nth_nseq ltn_ord. Qed.

(** The demonstration robot of two joints, of gear ratio 1. *)
Lemma jointdynamics_inertia_witness :
  jointdynamics (@unit_rne 2) (demo_robot 2) 0 None
  = Ok [seq (let link := nth (no_link rat) (links (demo_robot 2)) j in
             (Fin (link_Jm link
                   + inertia (@unit_rne 2) (demo_robot 2) 0 j j
                     / link_G link ^+ 2),
              link_B link))
       | j : 'I_2 <- enum 'I_2].
Proof.
apply: jointdynamics_inertia; first by [].
exact: demo_links_gear.
Defined.

(** The demonstration robot of two joints at unit velocities. *)
Lemma jointdynamics_velocity_ambiguous_witness :
  jointdynamics (@unit_rne 2) (demo_robot 2) 0 (Some (const_mx 1))
  = Raise (ValueError msg_ambiguous).
Proof. exact: jointdynamics_velocity_ambiguous. Defined.

(** The demonstration robot of one joint at the velocity 2. *)
Lemma jointdynamics_single_joint_witness :
  jointdynamics (@unit_rne 1) (demo_robot 1) 0 (Some (const_mx 2%:R))
  = Ok [:: (eadd (Fin (link_Jm demo_link))
                 (ediv (Fin (inertia (@unit_rne 1) (demo_robot 1) 0 0 0))
                       (Fin (`|link_G demo_link| ^+ 2))),
            link_B demo_link
            + (if 0 < (const_mx 2%:R : 'cV[rat]_1) 0 0
               then (link_Tc demo_link).1 / (const_mx 2%:R : 'cV[rat]_1) 0 0
               else if (const_mx 2%:R : 'cV[rat]_1) 0 0 < 0
               then (link_Tc demo_link).2 / (const_mx 2%:R : 'cV[rat]_1) 0 0
               else 0))].
Proof. exact: jointdynamics_single_joint. Defined.

(** A robot of two joints. *)
Lemma cinertia_joint_count_witness :
  cinertia (@unit_rne 2) (fun _ _ => 0) (@left_pinv 2) (demo_robot 2) None
  = Raise (ValueError msg_broadcast_plane).
Proof. exact: cinertia_joint_count. Defined.

Lemma left_pinv_identity (rb : Robot rat 6) (q : 'cV[rat]_6) :
  left_pinv (identity_jacobian rb q) *m identity_jacobian rb q = 1%:M.
Proof.
by rewrite /left_pinv /identity_jacobian trmx1 !mulmx1 invmx1.
Qed.

(** The six-joint arm whose Jacobian is the identity. *)
Lemma cinertia_congruence_witness :
  exists2 Mt,
    cinertia (@unit_rne 6) identity_jacobian (@left_pinv 6) (demo_robot 6)
             (Some 0)
    = Ok Mt
    & (identity_jacobian (demo_robot 6) 0)^T *m Mt
      *m identity_jacobian (demo_robot 6) 0
      = inertia (@unit_rne 6) (demo_robot 6) 0.
Proof.
apply: cinertia_congruence => //.
exact: left_pinv_identity.
Defined.

End FurtherInstances.
